(** * envtemplate: the template context builder, the context filter and the
      extended string operations, embedded from the Go sources.

    Go strings are byte sequences; they are modelled by [string], whose
    characters ([ascii]) are the bytes.  Maps are [gmap]s.  The functions of
    the Go standard library that the program calls ([strings], [unicode],
    [unicode/utf8], [os], [regexp], [encoding/json], [encoding/base64],
    [fmt]) are modelled in modules named after their packages, following
    the library sources. *)

From Stdlib Require Import String Ascii List NArith Lia Bool DecimalString.
From stdpp Require Import gmap strings list fin_maps.

Open Scope string_scope.
Open Scope list_scope.

(** ** Bytes *)

(** The double quote. *)
Definition dquote : ascii := "034".

Definition byte (c : ascii) : N := N_of_ascii c.

Definition is_byte (c d : ascii) : bool := Ascii.eqb c d.

Definition in_range (lo hi : N) (c : ascii) : bool :=
  (lo <=? byte c)%N && (byte c <=? hi)%N.

Definition isDigit (c : ascii) : bool := in_range 48 57 c.
Definition isUpper (c : ascii) : bool := in_range 65 90 c.
Definition isLower (c : ascii) : bool := in_range 97 122 c.

(** Substrings [s[n:]] and [s[:n]]. *)
Fixpoint drop_str (n : nat) (s : string) : string :=
  match n, s with
  | S k, String _ rest => drop_str k rest
  | _, _ => s
  end.

Fixpoint take_str (n : nat) (s : string) : string :=
  match n, s with
  | S k, String c rest => String c (take_str k rest)
  | _, _ => ""
  end.

(** The longest prefix of [s] whose bytes satisfy [p], and what follows it. *)
Fixpoint span_str (p : ascii -> bool) (s : string) : string * string :=
  match s with
  | String c rest =>
      if p c then let '(a, b) := span_str p rest in (String c a, b)
      else ("", s)
  | "" => ("", "")
  end.

(** Whether byte [c] occurs in [s]. *)
Fixpoint has_byte (c : ascii) (s : string) : bool :=
  match s with
  | "" => false
  | String d rest => is_byte d c || has_byte c rest
  end.

(** ** Package unicode/utf8 *)
Module utf8.

Definition RuneError : N := 65533.

(** The information byte of the table [first]: size of the sequence in the
    low nibble, index into [acceptRanges] in the high nibble; [as] = 0xF0
    for ASCII, [xx] = 0xF1 for an invalid first byte. *)
Definition first (b : N) : N :=
  if (b <? 128)%N then 240                         (* as *)
  else if (b <? 194)%N then 241                    (* xx *)
  else if (b <? 224)%N then 2                      (* s1 *)
  else if (b =? 224)%N then 19                     (* s2 *)
  else if (b <? 237)%N then 3                      (* s3 *)
  else if (b =? 237)%N then 35                     (* s4 *)
  else if (b <? 240)%N then 3                      (* s3 *)
  else if (b =? 240)%N then 52                     (* s5 *)
  else if (b <? 244)%N then 4                      (* s6 *)
  else if (b =? 244)%N then 68                     (* s7 *)
  else 241.                                        (* xx *)

Definition acceptRanges (i : N) : N * N :=
  match i with
  | 0 => (128, 191)
  | 1 => (160, 191)
  | 2 => (128, 159)
  | 3 => (144, 191)
  | _ => (128, 143)
  end%N.

Definition cont (b : N) : bool := (128 <=? b)%N && (b <=? 191)%N.

(** [DecodeRuneInString s]: the first rune of [s] and its width in bytes;
    [(RuneError, 1)] for an invalid encoding, [(RuneError, 0)] for the
    empty string. *)
Definition DecodeRuneInString (s : string) : N * nat :=
  match s with
  | "" => (RuneError, 0)
  | String c0 t0 =>
      let s0 := byte c0 in
      let x := first s0 in
      if (240 <=? x)%N then
        (if (x =? 240)%N then s0 else RuneError, 1)
      else
        let sz := N.to_nat (N.land x 7) in
        let '(lo, hi) := acceptRanges (N.shiftr x 4) in
        if (String.length s <? sz)%nat then (RuneError, 1)
        else
          match t0 with
          | "" => (RuneError, 1)
          | String c1 t1 =>
              let s1 := byte c1 in
              if (s1 <? lo)%N || (hi <? s1)%N then (RuneError, 1)
              else if (sz <=? 2)%nat then
                (N.lor (N.shiftl (N.land s0 31) 6) (N.land s1 63), 2)
              else
                match t1 with
                | "" => (RuneError, 1)
                | String c2 t2 =>
                    let s2 := byte c2 in
                    if negb (cont s2) then (RuneError, 1)
                    else if (sz <=? 3)%nat then
                      (N.lor (N.lor (N.shiftl (N.land s0 15) 12)
                                    (N.shiftl (N.land s1 63) 6))
                             (N.land s2 63), 3)
                    else
                      match t2 with
                      | "" => (RuneError, 1)
                      | String c3 _ =>
                          let s3 := byte c3 in
                          if negb (cont s3) then (RuneError, 1)
                          else
                            (N.lor (N.lor (N.lor (N.shiftl (N.land s0 7) 18)
                                                 (N.shiftl (N.land s1 63) 12))
                                          (N.shiftl (N.land s2 63) 6))
                                   (N.land s3 63), 4)
                      end
                end
          end
  end.

(** The runes of [s] with their widths, decoded from the left; [skip]
    counts the bytes of the current rune still to be passed over. *)
Fixpoint runes_from (skip : nat) (s : string) : list (N * nat) :=
  match s with
  | "" => []
  | String _ rest =>
      match skip with
      | S k => runes_from k rest
      | 0 =>
          let '(r, w) := DecodeRuneInString s in
          (r, w) :: runes_from (w - 1) rest
      end
  end.

Definition runes (s : string) : list (N * nat) := runes_from 0 s.

Definition RuneCountInString (s : string) : nat := length (runes s).

End utf8.

(** ** Package unicode *)
Module unicode.

Definition MaxLatin1 : N := 255.

(** The table [White_Space]: its 16-bit ranges, each with its low end,
    its high end and its stride; the first [White_Space_LatinOffset] of
    them end in Latin-1.  The table has no 32-bit range. *)
Definition White_Space_R16 : list (N * N * N) :=
  [(9, 13, 1); (32, 133, 101); (160, 5760, 5600); (8192, 8202, 1);
   (8232, 8233, 1); (8239, 8287, 48); (12288, 12288, 1)]%N.

Definition White_Space_LatinOffset : nat := 2.

(** [is16 ranges r] for a table of at most [linearMax] ranges: the linear
    search. *)
Fixpoint is16 (ranges : list (N * N * N)) (r : N) : bool :=
  match ranges with
  | [] => false
  | (lo, hi, stride) :: ranges' =>
      if (r <? lo)%N then false
      else if (r <=? hi)%N then (stride =? 1)%N || ((r - lo) mod stride =? 0)%N
      else is16 ranges' r
  end.

(** [isExcludingLatin(White_Space, r)]. *)
Definition isExcludingLatin (r : N) : bool :=
  let r16 := White_Space_R16 in
  let off := White_Space_LatinOffset in
  match last r16 with
  | Some (_, hi, _) =>
      if (off <? length r16)%nat && (r <=? hi)%N then is16 (drop off r16) r
      else false
  | None => false
  end.

(** [IsSpace r]: tab, line feed, vertical tab, form feed, carriage return,
    space, U+0085 and U+00A0 in Latin-1; the table [White_Space] above
    it. *)
Definition IsSpace (r : N) : bool :=
  if (r <=? MaxLatin1)%N then
    match r with
    | 9 | 10 | 11 | 12 | 13 | 32 | 133 | 160 => true
    | _ => false
    end%N
  else isExcludingLatin r.

End unicode.

(** ** Package strings *)
Module strings.

Definition HasPrefix (s prefix : string) : bool := String.prefix prefix s.

(** [Index s substr]: the index of the first instance of [substr] in [s];
    [None] stands for -1. *)
Fixpoint Index (s substr : string) : option nat :=
  match s with
  | "" => if HasPrefix "" substr then Some 0 else None
  | String _ rest =>
      if HasPrefix s substr then Some 0 else S <$> Index rest substr
  end.

(** The loop of [Count] for a non-empty [substr]: one iteration per
    instance found; [fuel] bounds the iterations. *)
Fixpoint countLoop (fuel : nat) (s substr : string) : nat :=
  match fuel with
  | 0 => 0
  | S f =>
      match Index s substr with
      | None => 0
      | Some i => S (countLoop f (drop_str (i + String.length substr) s) substr)
      end
  end.

(** [Count s substr]: the number of non-overlapping instances of [substr]
    in [s]; for an empty [substr], one more than the number of runes. *)
Definition Count (s substr : string) : nat :=
  if String.eqb substr "" then utf8.RuneCountInString s + 1
  else countLoop (String.length s) s substr.

(** The loop of [explode]: [k] pieces of one rune each, then the rest. *)
Fixpoint explodeLoop (k : nat) (s : string) : list string :=
  match k with
  | 0 => [s]
  | S k' =>
      let '(_, size) := utf8.DecodeRuneInString s in
      take_str size s :: explodeLoop k' (drop_str size s)
  end.

(** [explode s n]: [s] split into UTF-8 sequences, at most [n] of them
    ([n < 0] for no limit); invalid bytes are one piece each. *)
Definition explode (s : string) (n : Z) : list string :=
  let l := Z.of_nat (utf8.RuneCountInString s) in
  let n := if ((n <? 0) || (l <? n))%Z then l else n in
  if (0 <? n)%Z then explodeLoop (Z.to_nat (n - 1)) s else [].

(** The loop of [genSplit]: cut at the first instance of [sep], at most
    [k] times, and end with what is left. *)
Fixpoint splitLoop (k : nat) (s sep : string) (sepSave : nat) : list string :=
  match k with
  | 0 => [s]
  | S k' =>
      match Index s sep with
      | None => [s]
      | Some m =>
          take_str (m + sepSave) s
            :: splitLoop k' (drop_str (m + String.length sep) s) sep sepSave
      end
  end.

Definition genSplit (s sep : string) (sepSave : nat) (n : Z) : list string :=
  if (n =? 0)%Z then []
  else if String.eqb sep "" then explode s n
  else
    let n := if (n <? 0)%Z then (Z.of_nat (Count s sep) + 1)%Z else n in
    let n := if (Z.of_nat (String.length s) + 1 <? n)%Z
             then (Z.of_nat (String.length s) + 1)%Z else n in
    splitLoop (Z.to_nat (n - 1)) s sep sepSave.

Definition Split (s sep : string) : list string := genSplit s sep 0 (-1).

Definition SplitN (s sep : string) (n : Z) : list string := genSplit s sep 0 n.

(** [Join elems sep]. *)
Fixpoint Join (elems : list string) (sep : string) : string :=
  match elems with
  | [] => ""
  | [e] => e
  | e :: rest => e +:+ sep +:+ Join rest sep
  end.

(** The table [asciiSpace]: tab, line feed, vertical tab, form feed,
    carriage return and space. *)
Definition asciiSpace (c : ascii) : bool :=
  match byte c with
  | 9 | 10 | 11 | 12 | 13 | 32 => true
  | _ => false
  end%N.

(** [s[lo:hi]] *)
Definition slice (s : string) (lo hi : nat) : string :=
  take_str (hi - lo) (drop_str lo s).

(** The loop of [FieldsFunc] over the runes of [s], as [range s] gives
    them: [end_] is the byte index of the rune and [start] the index where
    the current field began ([None] for a negative [start]); [len] is
    [len(s)].  It gives the spans in the order of their recording. *)
Fixpoint spansLoop (f : N -> bool) (start : option nat) (end_ : nat)
    (rs : list (N * nat)) (len : nat) : list (nat * nat) :=
  match rs with
  | [] =>
      match start with
      | Some st => [(st, len)]
      | None => []
      end
  | (rune, w) :: rs' =>
      if f rune then
        match start with
        | Some st => (st, end_) :: spansLoop f None (end_ + w) rs' len
        | None => spansLoop f None (end_ + w) rs' len
        end
      else
        match start with
        | Some st => spansLoop f (Some st) (end_ + w) rs' len
        | None => spansLoop f (Some end_) (end_ + w) rs' len
        end
  end.

(** [FieldsFunc s f]: the spans, then one string for each of them. *)
Definition FieldsFunc (s : string) (f : N -> bool) : list string :=
  let spans := spansLoop f None 0 (utf8.runes s) (String.length s) in
  map (λ '(start, end_), slice s start end_) spans.

(** The first loop of [Fields]: the count [n] of the fields and the bits
    [setBits] that are set in the bytes of [s]; [wasSpace] and [isSpace]
    are 1 or 0 in the source, and [n += wasSpace & ^isSpace] adds one when
    the first is 1 and the second 0. *)
Fixpoint scanFields (n : nat) (wasSpace : bool) (setBits : N) (s : string) : nat * N :=
  match s with
  | "" => (n, setBits)
  | String r rest =>
      let setBits := N.lor setBits (byte r) in
      let isSpace := asciiSpace r in
      let n := n + (if wasSpace && negb isSpace then 1 else 0) in
      scanFields n isSpace setBits rest
  end.

(** [a[na] = x]; with an index out of range the program stops ([None]). *)
Definition store (a : list string) (na : nat) (x : string) : option (list string) :=
  if (na <? length a)%nat then Some (<[na := x]> a) else None.

(** The loops of the ASCII path of [Fields] from the index [i] of [s] on,
    where [rest] is [s[i:]]: [skipping] holds inside the two loops that
    skip the spaces in front of a field, after which [fieldStart = i];
    outside of them the main loop passes over a field and stores it at
    the space that ends it.  At the end of [s] the last field is
    stored. *)
Fixpoint fieldsLoop (s : string) (a : list string) (na fieldStart i : nat)
    (skipping : bool) (rest : string) : option (list string) :=
  match rest with
  | "" =>
      let fieldStart := if skipping then i else fieldStart in
      if (fieldStart <? String.length s)%nat then store a na (drop_str fieldStart s)
      else Some a
  | String c rest' =>
      if skipping then
        if asciiSpace c then fieldsLoop s a na fieldStart (i + 1) true rest'
        else fieldsLoop s a na i (i + 1) false rest'
      else
        if negb (asciiSpace c) then fieldsLoop s a na fieldStart (i + 1) false rest'
        else
          a ← store a na (slice s fieldStart i);
          fieldsLoop s a (na + 1) fieldStart (i + 1) true rest'
  end.

(** [Fields s]: [FieldsFunc] with [unicode.IsSpace] when a byte of [s] is
    not ASCII, and otherwise the ASCII path, which fills a slice of [n]
    strings. *)
Definition Fields (s : string) : option (list string) :=
  let '(n, setBits) := scanFields 0 true 0 s in
  if (128 <=? setBits)%N then Some (FieldsFunc s unicode.IsSpace)
  else fieldsLoop s (replicate n "") 0 0 0 true s.

End strings.

(** ** Packages syscall and os: the process environment *)
Module os.

(** An entry [key=value] of the environment block cut at its first ['=']. *)
Definition entry_cut (s : string) : option (string * string) :=
  match strings.Index s "=" with
  | Some j => Some (take_str j s, drop_str (S j) s)
  | None => None
  end.

(** [copyenv]: the environment block [envs] that the runtime provides,
    with every entry whose key was already mentioned cleared to the empty
    string; [seen] holds the keys of the index [env] built so far. *)
Fixpoint copyenv (seen : gset string) (envs : list string) : list string :=
  match envs with
  | [] => []
  | s :: rest =>
      match entry_cut s with
      | Some (key, _) =>
          if decide (key ∈ seen) then "" :: copyenv seen rest
          else s :: copyenv ({[key]} ∪ seen) rest
      | None => s :: copyenv seen rest
      end
  end.

(** [Environ]: a copy of the entries that are not cleared. *)
Definition Environ (envs : list string) : list string :=
  filter (λ s, s ≠ "") (copyenv ∅ envs).

(** The value of the first entry whose key is [key]. *)
Fixpoint lookupenv (key : string) (envs : list string) : option string :=
  match envs with
  | [] => None
  | s :: rest =>
      match entry_cut s with
      | Some (k, v) => if String.eqb k key then Some v else lookupenv key rest
      | None => lookupenv key rest
      end
  end.

(** [Getenv key]: the value of the variable, empty when it is not present. *)
Definition Getenv (envs : list string) (key : string) : string :=
  if String.eqb key "" then ""
  else default "" (lookupenv key (copyenv ∅ envs)).

Definition isShellSpecialVar (c : ascii) : bool :=
  has_byte c "*#$@!?-0123456789".

Definition isAlphaNum (c : ascii) : bool :=
  is_byte c "_" || isDigit c || isLower c || isUpper c.

(** The scan of [getShellName] to the closing brace; [s] is what follows
    the opening brace. *)
Definition scanBrace (s : string) : string * nat :=
  match strings.Index s "}" with
  | Some 0 => ("", 2)                  (* bad syntax; eat "${}" *)
  | Some i => (take_str i s, i + 2)
  | None => ("", 1)                    (* bad syntax; eat "${" *)
  end.

(** [getShellName s]: the name that begins [s] (what follows a ['$']) and
    the number of bytes consumed to extract it. *)
Definition getShellName (s : string) : string * nat :=
  match s with
  | "" => ("", 0)
  | String c0 rest =>
      if is_byte c0 "{" then
        match rest with
        | String c1 (String c2 _) =>
            if isShellSpecialVar c1 && is_byte c2 "}"
            then (String c1 "", 3)
            else scanBrace rest
        | _ => scanBrace rest
        end
      else if isShellSpecialVar c0 then (String c0 "", 1)
      else
        let '(name, _) := span_str isAlphaNum s in
        (name, String.length name)
  end.

(** The loop of [Expand] over the bytes of [s]; [skip] counts the bytes of
    a reference still to be passed over ([j += w]). *)
Fixpoint expandLoop (mapping : string -> string) (skip : nat) (s : string)
  : string :=
  match s with
  | "" => ""
  | String c rest =>
      match skip with
      | S k => expandLoop mapping k rest
      | 0 =>
          if is_byte c "$" && negb (String.eqb rest "") then
            let '(name, w) := getShellName rest in
            (if String.eqb name "" then
               if (0 <? w)%nat then ""    (* invalid syntax; eat the bytes *)
               else "$"                   (* no name: the dollar stays *)
             else mapping name)
            +:+ expandLoop mapping w rest
          else String c (expandLoop mapping 0 rest)
      end
  end.

(** [Expand s mapping] replaces [${var}] and [$var] in [s]. *)
Definition Expand (s : string) (mapping : string -> string) : string :=
  expandLoop mapping 0 s.

Definition ExpandEnv (envs : list string) (s : string) : string :=
  Expand s (Getenv envs).

End os.

(** ** Package regexp *)
Module regexp.

(** The parse tree of a pattern, after regexp/syntax: one constructor per
    operator ([Concat] and [Alternate] are binary here, counted
    repetitions are held in their expanded form, runes are code points). *)
Inductive Regexp : Type :=
| NoMatch                                   (* matches no strings *)
| EmptyMatch                                (* matches the empty string *)
| Literal (r : N)                           (* matches the rune r *)
| CharClass (ranges : list (N * N))         (* a rune of one of the ranges *)
| AnyCharNotNL
| AnyChar
| BeginLine
| EndLine
| BeginText
| EndText
| WordBoundary
| NoWordBoundary
| Capture (name : string) (sub : Regexp)
| Star (sub : Regexp)
| Plus (sub : Regexp)
| Quest (sub : Regexp)
| Concat (a b : Regexp)
| Alternate (a b : Regexp).

(** A parse error: [Code] and the offending expression [Expr]. *)
Record Error : Type := mkError { Code : string; Expr : string }.

Definition Error_text (e : Error) : string :=
  "error parsing regexp: " +:+ Code e +:+ ": `" +:+ Expr e +:+ "`".

Definition in_ranges (ranges : list (N * N)) (r : N) : bool :=
  existsb (λ '(lo, hi), (lo <=? r)%N && (r <=? hi)%N) ranges.

Definition isWordRune (r : N) : bool :=
  in_ranges [(48, 57); (65, 90); (95, 95); (97, 122)]%N r.

Definition word_at (rs : list N) (i : nat) : bool :=
  match rs !! i with Some r => isWordRune r | None => false end.

Definition word_before (rs : list N) (i : nat) : bool :=
  match i with 0 => false | S k => word_at rs k end.

Definition step_rune (p : N -> bool) (rs : list N) (i : nat) : list nat :=
  match rs !! i with
  | Some r => if p r then [S i] else []
  | None => []
  end.

Definition guard (b : bool) (i : nat) : list nat := if b then [i] else [].

(** Zero or more rounds of [f] from position [j]; a round that does not
    advance adds nothing, so [fuel] rounds suffice for [fuel] runes. *)
Fixpoint star_from (f : nat -> list nat) (fuel : nat) (j : nat) : list nat :=
  j :: match fuel with
       | 0 => []
       | S k =>
           flat_map (λ j', if (j <? j')%nat then star_from f k j' else [])
                    (f j)
       end.

(** [ends rs re i]: the positions at which a match of [re] that begins at
    position [i] of the runes [rs] can end. *)
Fixpoint ends (rs : list N) (re : Regexp) (i : nat) : list nat :=
  match re with
  | NoMatch => []
  | EmptyMatch => [i]
  | Literal r => step_rune (N.eqb r) rs i
  | CharClass ranges => step_rune (in_ranges ranges) rs i
  | AnyCharNotNL => step_rune (λ r, negb (r =? 10)%N) rs i
  | AnyChar => step_rune (λ _, true) rs i
  | BeginLine =>
      guard (match i with 0 => true | S k => bool_decide (rs !! k = Some 10%N) end) i
  | EndLine =>
      guard ((i =? length rs)%nat || bool_decide (rs !! i = Some 10%N)) i
  | BeginText => guard (i =? 0)%nat i
  | EndText => guard (i =? length rs)%nat i
  | WordBoundary => guard (xorb (word_before rs i) (word_at rs i)) i
  | NoWordBoundary => guard (negb (xorb (word_before rs i) (word_at rs i))) i
  | Capture _ sub => ends rs sub i
  | Star sub => star_from (ends rs sub) (length rs) i
  | Plus sub => flat_map (star_from (ends rs sub) (length rs)) (ends rs sub i)
  | Quest sub => ends rs sub i ++ [i]
  | Concat a b => flat_map (ends rs b) (ends rs a i)
  | Alternate a b => ends rs a i ++ ends rs b i
  end.

(** The runes of a text, invalid bytes read as [utf8.RuneError]. *)
Definition input (s : string) : list N := fst <$> utf8.runes s.

(** [MatchString]: whether the text contains any match of the expression. *)
Definition MatchString (re : Regexp) (s : string) : bool :=
  let rs := input s in
  existsb (λ i, negb (bool_decide (ends rs re i = []))) (seq 0 (S (length rs))).

(** Whether the expression matches the full text, from its first rune to
    its last. *)
Definition FullMatch (re : Regexp) (s : string) : bool :=
  let rs := input s in
  existsb (λ j, (j =? length rs)%nat) (ends rs re 0).

(** *** Replacement templates *)

Definition isNameByte (c : ascii) : bool :=
  isUpper c || isLower c || isDigit c || is_byte c "_".

(** The number that a name of digits denotes; [None] is the -1 of a name
    that is not a number (or has a leading zero, or is too long). *)
Fixpoint parseNum (acc : N) (name : string) : option N :=
  match name with
  | "" => Some acc
  | String c rest =>
      if negb (isDigit c) || (100000000 <=? acc)%N then None
      else parseNum (acc * 10 + (byte c - 48))%N rest
  end.

(** [extract str]: the name from a leading [name] or [{name}] of [str],
    its number, and the bytes consumed; [None] when malformed.  Names are
    made of ASCII letters, digits and underscores. *)
Definition extract (str : string) : option (string * option N * nat) :=
  match str with
  | "" => None
  | String c0 rest0 =>
      let brace := is_byte c0 "{" in
      let str' := if brace then rest0 else str in
      let '(name, after) := span_str isNameByte str' in
      let i := String.length name in
      if (i =? 0)%nat then None
      else if brace && negb (strings.HasPrefix after "}") then None
      else
        let num :=
          match name with
          | String d (String _ _) => if is_byte d "0" then None else parseNum 0 name
          | _ => parseNum 0 name
          end in
        Some (name, num, if brace then i + 2 else i)
  end.

(** The groups of one match: the name of each subexpression with the text
    it matched, if it took part; group 0 is the whole match. *)
Definition Groups : Type := list (string * option string).

Definition group_text (g : Groups) (name : string) (num : option N) : string :=
  match num with
  | Some n =>
      match g !! N.to_nat n with
      | Some (_, Some t) => t
      | _ => ""
      end
  | None =>
      match List.find (λ '(namei, t), String.eqb name namei && bool_decide (is_Some t)) g with
      | Some (_, Some t) => t
      | _ => ""
      end
  end.

(** The loop of [expand] over the bytes of the template; [skip] counts the
    bytes of a reference still to be passed over. *)
Fixpoint expand (g : Groups) (skip : nat) (template : string) : string :=
  match template with
  | "" => ""
  | String c rest =>
      match skip with
      | S k => expand g k rest
      | 0 =>
          if is_byte c "$" then
            if strings.HasPrefix rest "$" then "$" +:+ expand g 1 rest
            else
              match extract rest with
              | None => "$" +:+ expand g 0 rest   (* malformed: raw text *)
              | Some (name, num, w) => group_text g name num +:+ expand g w rest
              end
          else String c (expand g 0 rest)
      end
  end.

(** *** The expression of the late-expansion markers *)

Definition markerPattern : string := "%(?P<VARNAME>[\w-]+)%".

(** Its parse tree. *)
Definition markerRe : Regexp :=
  Concat (Literal 37)
    (Concat (Capture "VARNAME"
               (Plus (CharClass [(45, 45); (48, 57); (65, 90); (95, 95); (97, 122)]%N)))
            (Literal 37)).

(** A byte of the class [[\w-]]. *)
Definition isMarkerNameByte (c : ascii) : bool :=
  isDigit c || isUpper c || isLower c || is_byte c "_" || is_byte c "-".

(** The match of the marker expression that begins at the first byte of
    [s], if there is one: a percent sign, the longest run of name bytes,
    which is not empty, and a percent sign.  The result is the run. *)
Definition markerAt (s : string) : option string :=
  match s with
  | "" => None
  | String c rest =>
      if is_byte c "%" then
        let '(name, after) := span_str isMarkerNameByte rest in
        if negb (String.eqb name "") && strings.HasPrefix after "%"
        then Some name else None
      else None
  end.

(** [ReplaceAll] for the marker expression: the matches are found from
    the left and do not overlap; the text between them is copied and each
    match is replaced by the expansion of the template [repl].  [skip]
    counts the bytes of the current match still to be passed over. *)
Fixpoint replaceAllLoop (repl : string) (skip : nat) (src : string) : string :=
  match src with
  | "" => ""
  | String c rest =>
      match skip with
      | S k => replaceAllLoop repl k rest
      | 0 =>
          match markerAt src with
          | Some name =>
              expand [("", Some ("%" +:+ name +:+ "%")); ("VARNAME", Some name)] 0 repl
              +:+ replaceAllLoop repl (String.length name + 1) rest
          | None => String c (replaceAllLoop repl 0 rest)
          end
      end
  end.

Definition ReplaceAll (src repl : string) : string := replaceAllLoop repl 0 src.

End regexp.

(** ** A parser for a fragment of the pattern syntax

    The fragment: ASCII literals, [.], [^], [$], the escapes [\d \w \s],
    [\b \B \A \z], [\a \f \n \r \t \v] and escaped punctuation, classes
    [[...]] of bytes, ranges and [\d \w \s], groups [(...)], [(?:...)] and
    [(?P<name>...)], [|], and one of [* + ?] after an operand.  [parse]
    gives [None] for a pattern that leaves the fragment; inside it, it gives
    the parse tree or the error that regexp/syntax gives. *)
Module syntax.
Import regexp.

Record Frame : Type := mkFrame {
  alts : list Regexp;        (* the alternatives already closed, last first *)
  cur : list Regexp;         (* the operands of the open one, last first *)
  cap : option string        (* the name of a capturing group *)
}.

Inductive Pend : Type :=
| PNone
| PChar (lo : N)             (* a byte that may begin a range *)
| PDash (lo : N).            (* a byte and a dash *)

Inductive Mode : Type :=
| MNormal (rep : bool)       (* [rep]: the last operand ends with * + ? *)
| MEscape
| MGroupOpen                 (* after "(" *)
| MGroupQ                    (* after "(?" *)
| MGroupP                    (* after "(?P" *)
| MGroupName (acc : string)  (* after "(?P<" *)
| MClass (items : list (N * N)) (pend : Pend) (empty : bool) (expr : string)
| MClassEscape (items : list (N * N)) (pend : Pend) (expr : string).

Definition perl_d : list (N * N) := [(48, 57)]%N.
Definition perl_w : list (N * N) := [(48, 57); (65, 90); (95, 95); (97, 122)]%N.
Definition perl_s : list (N * N) := [(9, 10); (12, 13); (32, 32)]%N.

Fixpoint insertRange (r : N * N) (l : list (N * N)) : list (N * N) :=
  match l with
  | [] => [r]
  | x :: l' => if (fst r <=? fst x)%N then r :: l else x :: insertRange r l'
  end.

Definition sortRanges (l : list (N * N)) : list (N * N) :=
  foldr insertRange [] l.

Fixpoint concatOf (ops : list Regexp) : Regexp :=
  match ops with
  | [] => EmptyMatch
  | [r] => r
  | r :: ops' => Concat r (concatOf ops')
  end.

Fixpoint alternateOf (ops : list Regexp) : Regexp :=
  match ops with
  | [] => NoMatch
  | [r] => r
  | r :: ops' => Alternate r (alternateOf ops')
  end.

(** The tree of a frame that is closed. *)
Definition closeFrame (f : Frame) : Regexp :=
  let body := alternateOf (rev (concatOf (rev (cur f)) :: alts f)) in
  match cap f with
  | Some name => Capture name body
  | None => body
  end.

Definition push (r : Regexp) (stack : list Frame) : list Frame :=
  match stack with
  | f :: st => mkFrame (alts f) (r :: cur f) (cap f) :: st
  | [] => []
  end.

Definition isPunct (c : ascii) : bool :=
  (byte c <? 128)%N && negb (is_byte c "_") && negb (isDigit c || isUpper c || isLower c).

Definition escapeChar (c : ascii) : option N :=
  if isPunct c then Some (byte c)
  else if is_byte c "a" then Some 7%N
  else if is_byte c "f" then Some 12%N
  else if is_byte c "n" then Some 10%N
  else if is_byte c "r" then Some 13%N
  else if is_byte c "t" then Some 9%N
  else if is_byte c "v" then Some 11%N
  else None.

Definition perlClass (c : ascii) : option (list (N * N)) :=
  if is_byte c "d" then Some perl_d
  else if is_byte c "w" then Some perl_w
  else if is_byte c "s" then Some perl_s
  else None.

Definition flushPend (items : list (N * N)) (pend : Pend) : list (N * N) :=
  match pend with
  | PNone => items
  | PChar lo => (lo, lo) :: items
  | PDash lo => (45, 45)%N :: (lo, lo) :: items
  end.

(** A byte of a class, not escaped any more. *)
Definition classChar (items : list (N * N)) (pend : Pend) (expr : string) (r : N)
  : option Mode :=
  match pend with
  | PNone => Some (MClass items (PChar r) false expr)
  | PChar lo => Some (MClass ((lo, lo) :: items) (PChar r) false expr)
  | PDash lo =>
      if (lo <=? r)%N then Some (MClass ((lo, r) :: items) PNone false expr)
      else None
  end.

(** [None]: the pattern leaves the fragment. *)
Definition Result : Type := option (Regexp + Error).

(** What one byte does: the parse goes on or ends. *)
Definition Step : Type := (list Frame * Mode) + Result.

Definition go_on (stack : list Frame) (mode : Mode) : Step := inl (stack, mode).
Definition leave : Step := inr None.
Definition fail (code expr : string) : Step := inr (Some (inr (mkError code expr))).

(** A byte [c] read outside of escapes, classes and group headers. *)
Definition normalStep (whole here : string) (stack : list Frame) (rep : bool)
    (c : ascii) : Step :=
  if is_byte c "(" then go_on stack MGroupOpen
  else if is_byte c ")" then
    match stack with
    | f :: (g :: st) => go_on (push (closeFrame f) (g :: st)) (MNormal false)
    | _ => fail "unexpected )" whole
    end
  else if is_byte c "|" then
    match stack with
    | f :: st =>
        go_on (mkFrame (concatOf (rev (cur f)) :: alts f) [] (cap f) :: st) (MNormal false)
    | [] => leave
    end
  else if is_byte c "*" || is_byte c "+" || is_byte c "?" then
    match stack with
    | f :: st =>
        match cur f with
        | r :: ops =>
            if rep then leave
            else
              let r' := if is_byte c "*" then Star r
                        else if is_byte c "+" then Plus r else Quest r in
              go_on (mkFrame (alts f) (r' :: ops) (cap f) :: st) (MNormal true)
        | [] => fail "missing argument to repetition operator" (String c "")
        end
    | [] => leave
    end
  else if is_byte c "[" then go_on stack (MClass [] PNone true here)
  else if is_byte c "\" then go_on stack MEscape
  else if is_byte c "." then go_on (push AnyCharNotNL stack) (MNormal false)
  else if is_byte c "^" then go_on (push BeginText stack) (MNormal false)
  else if is_byte c "$" then go_on (push EndText stack) (MNormal false)
  else if is_byte c "{" || negb (byte c <? 128)%N then leave
  else go_on (push (Literal (byte c)) stack) (MNormal false).

(** One byte [c] of the pattern [whole], whose unread part, from [c] on,
    is [here]. *)
Definition stepParse (whole here : string) (stack : list Frame) (mode : Mode)
    (c : ascii) : Step :=
  match mode with
  | MNormal rep => normalStep whole here stack rep c
  | MEscape =>
      match perlClass c with
      | Some ranges => go_on (push (CharClass ranges) stack) (MNormal false)
      | None =>
          if is_byte c "b" then go_on (push WordBoundary stack) (MNormal false)
          else if is_byte c "B" then go_on (push NoWordBoundary stack) (MNormal false)
          else if is_byte c "A" then go_on (push BeginText stack) (MNormal false)
          else if is_byte c "z" then go_on (push EndText stack) (MNormal false)
          else
            match escapeChar c with
            | Some r => go_on (push (Literal r) stack) (MNormal false)
            | None => leave
            end
      end
  | MGroupOpen =>
      if is_byte c "?" then go_on stack MGroupQ
      else normalStep whole here (mkFrame [] [] (Some "") :: stack) false c
  | MGroupQ =>
      if is_byte c ":" then go_on (mkFrame [] [] None :: stack) (MNormal false)
      else if is_byte c "P" then go_on stack MGroupP
      else leave
  | MGroupP => if is_byte c "<" then go_on stack (MGroupName "") else leave
  | MGroupName acc =>
      if is_byte c ">" then
        if String.eqb acc "" then leave
        else go_on (mkFrame [] [] (Some acc) :: stack) (MNormal false)
      else if isNameByte c then go_on stack (MGroupName (acc +:+ String c ""))
      else leave
  | MClass items pend empty expr =>
      if is_byte c "]" then
        if empty then leave
        else go_on (push (CharClass (sortRanges (flushPend items pend))) stack)
                   (MNormal false)
      else if is_byte c "\" then go_on stack (MClassEscape items pend expr)
      else if is_byte c "^" && empty then leave
      else if is_byte c "[" || negb (byte c <? 128)%N then leave
      else if is_byte c "-" then
        match pend with
        | PChar lo => go_on stack (MClass items (PDash lo) false expr)
        | _ =>
            match classChar items pend expr 45%N with
            | Some m => go_on stack m
            | None => leave
            end
        end
      else
        match classChar items pend expr (byte c) with
        | Some m => go_on stack m
        | None => leave
        end
  | MClassEscape items pend expr =>
      match perlClass c with
      | Some ranges =>
          match pend with
          | PDash _ => leave
          | _ => go_on stack (MClass (ranges ++ flushPend items pend) PNone false expr)
          end
      | None =>
          match escapeChar c with
          | Some r =>
              match classChar items pend expr r with
              | Some m => go_on stack m
              | None => leave
              end
          | None => leave
          end
      end
  end.

(** The end of the pattern. *)
Definition finish (whole : string) (stack : list Frame) (mode : Mode) : Result :=
  match mode with
  | MNormal _ =>
      match stack with
      | [f] => Some (inl (closeFrame f))
      | _ => Some (inr (mkError "missing closing )" whole))
      end
  | MGroupOpen => Some (inr (mkError "missing closing )" whole))
  | MEscape => Some (inr (mkError "trailing backslash at end of expression" ""))
  | MClass _ _ _ expr | MClassEscape _ _ expr =>
      Some (inr (mkError "missing closing ]" expr))
  | _ => None
  end.

Fixpoint parseLoop (whole : string) (stack : list Frame) (mode : Mode)
    (here : string) : Result :=
  match here with
  | "" => finish whole stack mode
  | String c rest =>
      match stepParse whole here stack mode c with
      | inl (stack', mode') => parseLoop whole stack' mode' rest
      | inr r => r
      end
  end.

Definition parse (pattern : string) : Result :=
  parseLoop pattern [mkFrame [] [] None] (MNormal false) pattern.

(** A compiler for the examples: [parse] on the fragment; a pattern
    outside of it is turned down, which no example relies on. *)
Definition Compile (pattern : string) : Regexp + Error :=
  match parse pattern with
  | Some r => r
  | None => inr (mkError "pattern outside of the modelled fragment" pattern)
  end.

End syntax.

(** ** The world of a run: the file system and the diagnostic stream *)

(** An [error] is held by the text of its [Error()] method. *)
Definition error : Type := string.

Record World : Type := mkWorld {
  (** what [os.ReadFile] gives for a path: the bytes read and the error *)
  files : string -> string * option error;
  (** what was written to [os.Stderr], oldest first *)
  stderr : list string
}.

(** A computation that may read and write the world and returns normally. *)
Definition IO (A : Type) : Type := World -> A * World.

#[global] Instance IO_ret : MRet IO := λ A (a : A) w, (a, w).

#[global] Instance IO_bind : MBind IO :=
  λ A B (k : A -> IO B) (m : IO A) w, let '(a, w') := m w in k a w'.

(** ** Package fmt *)
Module fmt.

(** The operands that the program formats. *)
Inductive arg : Type :=
| Str (s : string)          (* a string or a value of a string type *)
| Bytes (b : string)        (* a byte slice *)
| Err (e : error).          (* an error *)

Definition decimal (n : N) : string := NilEmpty.string_of_uint (N.to_uint n).

(** A byte slice under [%v]: its elements in decimal between brackets. *)
Definition bytes_v (b : string) : string :=
  "[" +:+ strings.Join (map (λ c, decimal (byte c)) (list_ascii_of_string b)) " " +:+ "]".

Definition verb (v : ascii) (a : arg) : string :=
  match a with
  | Str s => s
  | Bytes b => if is_byte v "v" then bytes_v b else b
  | Err e => e
  end.

(** [Sprintf] for the verbs [%s] and [%v] and for [%%]. *)
Fixpoint Sprintf (format : string) (args : list arg) : string :=
  match format with
  | String c rest =>
      if is_byte c "%" then
        match rest with
        | String v rest' =>
            if is_byte v "%" then String "%" (Sprintf rest' args)
            else if is_byte v "s" || is_byte v "v" then
              match args with
              | a :: args' => verb v a +:+ Sprintf rest' args'
              | [] => "%!" +:+ String v "(MISSING)" +:+ Sprintf rest' args
              end
            else String c (Sprintf rest args)
        | "" => "%!(NOVERB)"
        end
      else String c (Sprintf rest args)
  | "" => ""
  end.

(** [Fprintf(os.Stderr, format, args...)]. *)
Definition Fprintf_Stderr (format : string) (args : list arg) : IO unit :=
  λ w, (tt, {| files := files w; stderr := stderr w ++ [Sprintf format args] |}).

End fmt.

(** [os.ReadFile] and [os.PathSeparator]. *)
Module osfile.

Definition ReadFile (name : string) : IO (string * option error) :=
  λ w, (files w name, w).


End osfile.

(** ** Package encoding/json *)
Module json.

Definition hex (n : N) : ascii :=
  match String.get (N.to_nat n) "0123456789abcdef" with
  | Some c => c
  | None => "0"
  end.

(** [htmlSafeSet]: the ASCII bytes that need no escape in a JSON string
    embedded in HTML. *)
Definition htmlSafeSet (c : ascii) : bool :=
  in_range 32 127 c
  && negb (is_byte c dquote || is_byte c "&" || is_byte c "<"
           || is_byte c ">" || is_byte c "\").

(** [safeSet]: the ASCII bytes that need no escape in a JSON string. *)
Definition safeSet (c : ascii) : bool :=
  in_range 32 127 c && negb (is_byte c dquote || is_byte c "\").

(** The escape of an ASCII byte that is not safe. *)
Definition escapeByte (c : ascii) : string :=
  if is_byte c "\" || is_byte c dquote then String "\" (String c "")
  else if (byte c =? 8)%N then "\b"
  else if (byte c =? 12)%N then "\f"
  else if (byte c =? 10)%N then "\n"
  else if (byte c =? 13)%N then "\r"
  else if (byte c =? 9)%N then "\t"
  else
    (* bytes below 0x20 apart from the above and, when escapeHTML is
       set, <, > and & *)
    "\u00" +:+ String (hex (N.shiftr (byte c) 4)) (String (hex (N.land (byte c) 15)) "").

(** The loop of [appendString] over the bytes of [src]; [skip] counts the
    bytes of the current multi-byte rune still to be passed over, which
    are copied when [copy] is set (a valid rune) and dropped otherwise (a
    rune written as an escape). *)
Fixpoint appendLoop (escapeHTML : bool) (skip : nat) (copy : bool) (src : string)
  : string :=
  match src with
  | "" => ""
  | String c rest =>
      match skip with
      | S k =>
          if copy then String c (appendLoop escapeHTML k copy rest)
          else appendLoop escapeHTML k copy rest
      | 0 =>
          if (byte c <? 128)%N then
            if htmlSafeSet c || (negb escapeHTML && safeSet c)
            then String c (appendLoop escapeHTML 0 true rest)
            else escapeByte c +:+ appendLoop escapeHTML 0 true rest
          else
            let '(r, size) := utf8.DecodeRuneInString (take_str 4 src) in
            if (r =? utf8.RuneError)%N && (size =? 1)%nat then
              "\ufffd" +:+ appendLoop escapeHTML 0 true rest
            else if (r =? 8232)%N || (r =? 8233)%N then
              "\u202" +:+ String (hex (N.land r 15)) ""
              +:+ appendLoop escapeHTML (size - 1) false rest
            else String c (appendLoop escapeHTML (size - 1) true rest)
      end
  end.

Definition appendString (src : string) (escapeHTML : bool) : string :=
  String dquote (appendLoop escapeHTML 0 true src +:+ String dquote "").

(** [Marshal] of a value of a string type: the string encoder, with
    [escapeHTML] set; it reports no error. *)
Definition Marshal (v : string) : string * option error :=
  (appendString v true, None).

End json.

(** ** Package encoding/base64: the standard encoding *)
Module base64.

Definition encodeStd : string :=
  "ABCDEFGHIJKLMNOPQRSTUVWXYZabcdefghijklmnopqrstuvwxyz0123456789+/".

Definition StdPadding : ascii := "=".

(** [enc.encode[i]] for [StdEncoding]. *)
Definition encode (i : N) : ascii :=
  default "000"%char (String.get (N.to_nat i) encodeStd).

(** [EncodedLen n] for an encoding with padding. *)
Definition EncodedLen (n : nat) : nat := (n + 2) / 3 * 4.

(** [Encode dst src] from the index [di] of [dst] on, where [src] is what
    is left of the source: the loop over the groups of three bytes, then
    the block of the one or two bytes that remain, with the padding. *)
Fixpoint Encode (dst : list ascii) (di : nat) (src : string) : list ascii :=
  match src with
  | String s0 (String s1 (String s2 rest)) =>
      let val := N.lor (N.lor (N.shiftl (byte s0) 16) (N.shiftl (byte s1) 8)) (byte s2) in
      let dst := <[di + 0 := encode (N.land (N.shiftr val 18) 63)]> dst in
      let dst := <[di + 1 := encode (N.land (N.shiftr val 12) 63)]> dst in
      let dst := <[di + 2 := encode (N.land (N.shiftr val 6) 63)]> dst in
      let dst := <[di + 3 := encode (N.land val 63)]> dst in
      Encode dst (di + 4) rest
  | String s0 (String s1 "") =>
      let val := N.shiftl (byte s0) 16 in
      let val := N.lor val (N.shiftl (byte s1) 8) in
      let dst := <[di + 0 := encode (N.land (N.shiftr val 18) 63)]> dst in
      let dst := <[di + 1 := encode (N.land (N.shiftr val 12) 63)]> dst in
      let dst := <[di + 2 := encode (N.land (N.shiftr val 6) 63)]> dst in
      <[di + 3 := StdPadding]> dst
  | String s0 "" =>
      let val := N.shiftl (byte s0) 16 in
      let dst := <[di + 0 := encode (N.land (N.shiftr val 18) 63)]> dst in
      let dst := <[di + 1 := encode (N.land (N.shiftr val 12) 63)]> dst in
      let dst := <[di + 2 := StdPadding]> dst in
      <[di + 3 := StdPadding]> dst
  | "" => dst
  end.

(** [EncodeToString src]: [Encode] into a buffer of [EncodedLen] bytes. *)
Definition EncodeToString (src : string) : string :=
  let buf := replicate (EncodedLen (String.length src)) "000"%char in
  string_of_list_ascii (Encode buf 0 src).

End base64.

(** * The program *)

(** ** Package template: the extended string *)
Module template.

(** [type ExtendedString string]: a string with added methods; the
    conversions to and from [string] change nothing. *)
Abbreviation ExtendedString := string.

(** [rv := make([]ExtendedString, len(strSlice))] and the loop
    [rv[i] = ExtendedString(sts)] over [strSlice]. *)
Definition convertSlice (strSlice : list string) : list ExtendedString :=
  foldl (λ rv '(i, sts), <[i := sts]> rv)
        (replicate (length strSlice) "")
        (imap pair strSlice).

Definition Split (es : ExtendedString) (sep : string) : list ExtendedString :=
  let strSlice := strings.Split es sep in
  convertSlice strSlice.

Definition LoadFile (es : ExtendedString) : IO ExtendedString :=
  '(fileData, err) ← osfile.ReadFile es;
  match err with
  | Some _ =>
      _ ← fmt.Fprintf_Stderr "Error reading file %s: %v" [fmt.Str es; fmt.Bytes fileData];
      mret ""
  | None => mret fileData
  end.



Definition ToJSON (es : ExtendedString) : IO ExtendedString :=
  let '(data, err) := json.Marshal es in
  match err with
  | Some e =>
      _ ← fmt.Fprintf_Stderr "Error converting to json %s: %v" [fmt.Str es; fmt.Err e];
      mret ""
  | None => mret data
  end.

(** [Fields]; it stops ([None]) if [strings.Fields] does. *)
Definition Fields (es : ExtendedString) : option (list ExtendedString) :=
  strSlice ← strings.Fields es;
  Some (convertSlice strSlice).

Definition ToBase64 (es : ExtendedString) : ExtendedString :=
  base64.EncodeToString es.

End template.

(** ** Package lib: the template data and its filter *)
Module lib.

(** [type TemplateData map[string]template.ExtendedString]. *)
Abbreviation TemplateData := (gmap string template.ExtendedString).

Section Filter.

(** [regexp.Compile]: the parser of the patterns, which gives the parse
    tree of a pattern or the error of one that is not valid. *)
Variable Compile : string -> regexp.Regexp + regexp.Error.

(** The loop [for k, v := range t] with [rv[k] = v] for the keys that
    the expression matches, from the empty map [rv]. *)
Definition Filter (t : TemplateData) (pattern : string) : IO TemplateData :=
  match Compile pattern with
  | inr err =>
      _ ← fmt.Fprintf_Stderr "Invalid pattern: %s - error: %v"
            [fmt.Str pattern; fmt.Err (regexp.Error_text err)];
      mret ∅
  | inl exp =>
      mret (map_fold (λ k v rv, if regexp.MatchString exp k then <[k := v]> rv else rv)
                     ∅ t)
  end.

End Filter.

End lib.

(** ** Package main: the template context builder *)
Module main.

(** The value of one assignment, line 67: the markers rewritten to
    [${NAME}] and the result expanded against the environment. *)
Definition lateExpand (envs : list string) (value : string) : string :=
  os.ExpandEnv envs (regexp.ReplaceAll value "${$VARNAME}").

(** One round of the loop over [os.Environ()]; [None] is the run-time
    panic of an index out of range. *)
Definition step (envs : list string) (envMap : lib.TemplateData)
    (envAssignment : string) : option lib.TemplateData :=
  let envVar := strings.SplitN envAssignment "=" 2 in
  v ← envVar !! 1;
  let envVar := <[1 := lateExpand envs v]> envVar in
  k ← envVar !! 0;
  v' ← envVar !! 1;
  Some (<[k := v']> envMap).

(** [getEnvMap] in a process whose environment block is [envs]. *)
Definition getEnvMap (envs : list string) : option lib.TemplateData :=
  foldl (λ acc envAssignment, envMap ← acc; step envs envMap envAssignment)
        (Some ∅) (os.Environ envs).

End main.

(** * Vocabulary of the properties *)

(** The entry of the environment block that assigns [value] to [name]. *)
Definition assignment (name value : string) : string := name +:+ "=" +:+ value.

(** The marker of the late expansion of [name]. *)
Definition marker (name : string) : string := "%" +:+ name +:+ "%".

Definition all_bytes (p : ascii -> bool) (s : string) : bool :=
  forallb p (list_ascii_of_string s).

(** A name that a marker can hold: word characters and hyphens, at least
    one. *)
Definition isMarkerName (n : string) : bool :=
  negb (String.eqb n "") && all_bytes regexp.isMarkerNameByte n.

(** Whether some part of [s] matches the marker expression. *)
Fixpoint containsMarker (s : string) : bool :=
  match s with
  | "" => false
  | String _ rest => bool_decide (is_Some (regexp.markerAt s)) || containsMarker rest
  end.

(** Whether [s] ends with a percent sign and a name: a percent sign put
    after [s] would close a marker that began in [s]. *)
Fixpoint endsInOpenMarker (s : string) : bool :=
  match s with
  | "" => false
  | String c rest => (is_byte c "%" && isMarkerName rest) || endsInOpenMarker rest
  end.

(** Every entry that [os.Environ] returns is an assignment. *)
Definition wellFormed (envs : list string) : bool :=
  forallb (has_byte "=") (os.Environ envs).

(** The keys of the entries that are assignments. *)
Definition keys (l : list string) : list string :=
  omap (λ s, fst <$> os.entry_cut s) l.

(** A byte that is not ASCII. *)
Definition high (c : ascii) : bool := (128 <=? byte c)%N.


(** The encoding of [s] by [json.Marshal], without the quotes around it. *)
Definition jsonBody (s : string) : string := json.appendLoop true 0 true s.

(** The states of a reader of the body of a JSON string, after the grammar
    of RFC 8259: outside of an escape, after a backslash, and inside a
    [\u] escape with [n] hexadecimal digits to come. *)
Inductive JState : Type :=
| JNormal
| JEscape
| JHex (n : nat).

Definition isHexDigit (c : ascii) : bool :=
  isDigit c || in_range 97 102 c || in_range 65 70 c.

(** One byte of the body: a quote and a byte below 0x20 are not allowed
    outside of an escape; a backslash begins an escape. *)
Definition jstep (st : JState) (c : ascii) : option JState :=
  match st with
  | JNormal =>
      if is_byte c dquote then None
      else if is_byte c "\" then Some JEscape
      else if (byte c <? 32)%N then None
      else Some JNormal
  | JEscape =>
      if is_byte c dquote || has_byte c "\/bfnrt" then Some JNormal
      else if is_byte c "u" then Some (JHex 4)
      else None
  | JHex (S n) =>
      if isHexDigit c then Some (match n with 0 => JNormal | _ => JHex n end)
      else None
  | JHex 0 => None
  end.

Fixpoint jrun (st : JState) (s : string) : option JState :=
  match s with
  | "" => Some st
  | String c rest =>
      match jstep st c with
      | Some st' => jrun st' rest
      | None => None
      end
  end.

(** [s] is the body of a JSON string. *)
Definition jsonStringBody (s : string) : bool :=
  match jrun JNormal s with
  | Some JNormal => true
  | _ => false
  end.

(** An ASCII byte. *)
Definition low (c : ascii) : bool := (byte c <? 128)%N.

(** A byte that is not an ASCII space. *)
Definition noSpace (c : ascii) : bool := negb (strings.asciiSpace c).

(** A field: a text that is not empty and holds no ASCII space. *)
Definition isField (fld : string) : bool :=
  negb (String.eqb fld "") && all_bytes noSpace fld.

(** A word of ASCII bytes that are not spaces, at least one. *)
Definition isAsciiWord (w : string) : bool :=
  negb (String.eqb w "") && all_bytes (λ c, low c && noSpace c) w.

(** The bytes of [s] that satisfy [p], in their order. *)
Fixpoint filter_str (p : ascii -> bool) (s : string) : string :=
  match s with
  | "" => ""
  | String c rest => if p c then String c (filter_str p rest) else filter_str p rest
  end.

(** The four characters of a group of three bytes. *)
Definition sextets (s0 s1 s2 : N) : list ascii :=
  let val := N.lor (N.lor (N.shiftl s0 16) (N.shiftl s1 8)) s2 in
  [base64.encode (N.land (N.shiftr val 18) 63);
   base64.encode (N.land (N.shiftr val 12) 63);
   base64.encode (N.land (N.shiftr val 6) 63);
   base64.encode (N.land val 63)].

(** The characters of the encoding, group after group. *)
Fixpoint groups (src : string) : list ascii :=
  match src with
  | String s0 (String s1 (String s2 rest)) =>
      sextets (byte s0) (byte s1) (byte s2) ++ groups rest
  | String s0 (String s1 "") =>
      take 3 (sextets (byte s0) (byte s1) 0) ++ [base64.StdPadding]
  | String s0 "" =>
      take 2 (sextets (byte s0) 0 0) ++ [base64.StdPadding; base64.StdPadding]
  | "" => []
  end.

(** A character of the alphabet of the standard encoding. *)
Definition isBase64Byte (c : ascii) : bool := has_byte c base64.encodeStd.

(** The padding of the encoding of [n] bytes. *)
Definition padding (n : nat) : string :=
  match n mod 3 with
  | 0 => ""
  | 1 => "=="
  | _ => "="
  end.

(** The decoding of RFC 4648 for a text without line breaks: the value of
    a character of the alphabet, the 24 bits of four of them, and a byte
    of the 24 bits. *)
Definition sextet (c : ascii) : option N :=
  N.of_nat <$> strings.Index base64.encodeStd (String c "").

Definition quantum (i0 i1 i2 i3 : N) : N :=
  N.lor (N.lor (N.lor (N.shiftl i0 18) (N.shiftl i1 12)) (N.shiftl i2 6)) i3.

Definition octet (v : N) (k : N) : ascii := ascii_of_N (N.land (N.shiftr v k) 255).

Fixpoint base64Decode (s : string) : option string :=
  match s with
  | "" => Some ""
  | String c0 (String c1 (String c2 (String c3 rest))) =>
      i0 ← sextet c0;
      i1 ← sextet c1;
      if is_byte c3 "=" then
        match rest with
        | "" =>
            if is_byte c2 "=" then
              Some (String (octet (quantum i0 i1 0 0) 16) "")
            else
              i2 ← sextet c2;
              Some (String (octet (quantum i0 i1 i2 0) 16)
                     (String (octet (quantum i0 i1 i2 0) 8) ""))
        | _ => None
        end
      else
        i2 ← sextet c2;
        i3 ← sextet c3;
        out ← base64Decode rest;
        Some (String (octet (quantum i0 i1 i2 i3) 16)
               (String (octet (quantum i0 i1 i2 i3) 8)
                 (String (octet (quantum i0 i1 i2 i3) 0) out)))
  | _ => None
  end.

(** * Properties *)

(** ** The models on documented cases *)

(** The example of the README: the marker gets the final value. *)
Example readme_late_expansion :
  main.getEnvMap ["VARIABLE=Later gator";
                  "MY_VAR=Early value: Early. Late Value: %VARIABLE%"]
  = Some {[ "VARIABLE" := "Later gator";
            "MY_VAR" := "Early value: Early. Late Value: Later gator" ]}.
Proof. reflexivity. Qed.

(** The cases of the documentation of [Split]. *)
Example Split_pieces : template.Split "a,b,,c" "," = ["a"; "b"; ""; "c"].
Proof. reflexivity. Qed.

Example Split_empty_separator : template.Split "abc" "" = ["a"; "b"; "c"].
Proof. reflexivity. Qed.

Example Split_both_empty : template.Split "" "" = [].
Proof. reflexivity. Qed.

Example Split_empty_text : template.Split "" "," = [""].
Proof. reflexivity. Qed.

(** The marker expression is the parse of its pattern, and it matches as
    the scan of the markers does. *)
Example markerRe_parsed : syntax.parse regexp.markerPattern = Some (inl regexp.markerRe).
Proof. reflexivity. Qed.

Example markerRe_matches :
  regexp.MatchString regexp.markerRe "x%MY-VAR_1%y" = true
  /\ containsMarker "x%MY-VAR_1%y" = true
  /\ regexp.MatchString regexp.markerRe "100% of %a.b%" = false
  /\ containsMarker "100% of %a.b%" = false.
Proof. repeat split; reflexivity. Qed.

Example ReplaceAll_markers :
  regexp.ReplaceAll "x%A%y %B-c% %% %a.b% %A%B% 100%" "${$VARNAME}"
  = "x${A}y ${B-c} %% %a.b% ${A}B% 100%".
Proof. reflexivity. Qed.

(** [os.Expand] on references that are well formed and on others. *)
Example ExpandEnv_cases :
  os.ExpandEnv ["A=1"; "B=2"] "x${A}y$B z$$ ${} ${ q $C. $ ${B" = "x1y2 z   q . $ B".
Proof. reflexivity. Qed.

(** An entry of the environment block that is no assignment stops the run
    with an index out of range. *)
Example getEnvMap_not_an_assignment : main.getEnvMap ["A=1"; "junk"] = None.
Proof. reflexivity. Qed.

(** ** Strings *)

#[local] Arguments String.append !s1 s2 : simpl nomatch.

Lemma str_app_assoc (a b c : string) : (a +:+ b) +:+ c = a +:+ (b +:+ c).
Proof. induction a as [|x a IH]; simpl; [reflexivity | now rewrite IH]. Qed.

Lemma str_app_nil_r (a : string) : a +:+ "" = a.
Proof. induction a as [|x a IH]; simpl; [reflexivity | now rewrite IH]. Qed.

Lemma str_length_app (a b : string) :
  String.length (a +:+ b) = String.length a + String.length b.
Proof. induction a as [|x a IH]; simpl; [reflexivity | now rewrite IH]. Qed.

Lemma is_byte_true (c d : ascii) : is_byte c d = true <-> c = d.
Proof. apply Ascii.eqb_eq. Qed.

Lemma is_byte_false (c d : ascii) : is_byte c d = false <-> c <> d.
Proof. apply Ascii.eqb_neq. Qed.

Lemma is_byte_refl (c : ascii) : is_byte c c = true.
Proof. apply Ascii.eqb_refl. Qed.

Lemma has_byte_app (c : ascii) (a b : string) :
  has_byte c (a +:+ b) = has_byte c a || has_byte c b.
Proof.
  induction a as [|x a IH]; simpl; [reflexivity|].
  now rewrite IH, orb_assoc.
Qed.

Lemma drop_str_app (a b : string) : drop_str (String.length a) (a +:+ b) = b.
Proof. induction a as [|x a IH]; simpl; [now destruct b | exact IH]. Qed.

Lemma take_str_app (a b : string) : take_str (String.length a) (a +:+ b) = a.
Proof. induction a as [|x a IH]; simpl; [now destruct b | now rewrite IH]. Qed.

Lemma take_drop_str (n : nat) (s : string) : take_str n s +:+ drop_str n s = s.
Proof.
  revert s; induction n as [|n IH]; intros [|c s]; simpl; try reflexivity.
  now rewrite IH.
Qed.

Lemma prefix_app (p t : string) : String.prefix p (p +:+ t) = true.
Proof.
  induction p as [|c p IH]; simpl; [now destruct t|].
  destruct (ascii_dec c c) as [_|ne]; [exact IH | now destruct ne].
Qed.

Lemma prefix_inv (p s : string) :
  String.prefix p s = true -> exists t, s = p +:+ t.
Proof.
  revert s; induction p as [|c p IH]; intros s H.
  - now exists s.
  - destruct s as [|d s]; simpl in H; [discriminate|].
    destruct (ascii_dec c d) as [->|]; [|discriminate].
    destruct (IH s H) as [t ->]. now exists t.
Qed.

(** [span_str] on a run of bytes of the class that is followed by a byte
    outside of it. *)
Lemma span_str_run (p : ascii -> bool) (n : string) (c : ascii) (rest : string) :
  forallb p (list_ascii_of_string n) = true -> p c = false ->
  span_str p (n +:+ String c rest) = (n, String c rest).
Proof.
  intros Hn Hc. induction n as [|x n IH]; simpl in *.
  - now rewrite Hc.
  - apply andb_true_iff in Hn as [Hx Hn]. now rewrite Hx, (IH Hn).
Qed.

Lemma span_str_spec (p : ascii -> bool) (s a b : string) :
  span_str p s = (a, b) ->
  s = a +:+ b /\ forallb p (list_ascii_of_string a) = true
  /\ match b with String c _ => p c = false | "" => True end.
Proof.
  revert a b; induction s as [|x s IH]; intros a b H; simpl in H.
  - now inversion H.
  - destruct (p x) eqn:Hx.
    + destruct (span_str p s) as [a' b'] eqn:E. inversion H; subst.
      destruct (IH _ _ eq_refl) as (-> & Ha & Hb). simpl. now rewrite Hx.
    + inversion H; subst. simpl. now rewrite Hx.
Qed.

(** ** Split *)

Lemma HasPrefix_inv (s p : string) :
  strings.HasPrefix s p = true -> exists t, s = p +:+ t.
Proof. apply prefix_inv. Qed.

Lemma HasPrefix_app (p t : string) : strings.HasPrefix (p +:+ t) p = true.
Proof. apply prefix_app. Qed.

(** [Index] finds no instance exactly when there is none. *)
Lemma Index_None_iff (s sep : string) :
  strings.Index s sep = None <-> (forall a b, s <> a +:+ sep +:+ b).
Proof.
  split.
  - induction s as [|c s IH]; intros H a b E.
    + destruct a; [|discriminate]. destruct sep; [|discriminate].
      discriminate H.
    + cbn [strings.Index] in H.
      destruct (strings.HasPrefix (String c s) sep) eqn:P; [discriminate|].
      destruct (strings.Index s sep) eqn:I; [discriminate|].
      destruct a as [|x a]; simpl in E.
      * rewrite E in P. unfold strings.HasPrefix in P.
        now rewrite prefix_app in P.
      * inversion E; subst. exact (IH eq_refl a b eq_refl).
  - induction s as [|c s IH]; intros H.
    + cbn [strings.Index].
      destruct (strings.HasPrefix "" sep) eqn:P; [|reflexivity].
      apply HasPrefix_inv in P as [t E]. now destruct (H "" t).
    + cbn [strings.Index].
      destruct (strings.HasPrefix (String c s) sep) eqn:P.
      * apply HasPrefix_inv in P as [t E]. now destruct (H "" t).
      * rewrite IH; [reflexivity|]. intros a b E.
        apply (H (String c a) b). simpl. now rewrite E.
Qed.

Lemma Count_no_instance (s sep : string) :
  sep <> "" -> strings.Index s sep = None -> strings.Count s sep = 0.
Proof.
  intros Hsep H. unfold strings.Count.
  apply String.eqb_neq in Hsep. rewrite Hsep.
  destruct (String.length s); simpl; [reflexivity | now rewrite H].
Qed.

Lemma convertSlice_one (s : string) : template.convertSlice [s] = [s].
Proof. reflexivity. Qed.

(** C8. Split identity: for a text [s] and a separator [sep] that is not
    empty and does not occur in [s], [Split] returns the sequence of one
    element [s]. *)
Theorem Split_identity (s sep : string) :
  sep <> "" -> (forall a b, s <> a +:+ sep +:+ b) ->
  template.Split s sep = [s].
Proof.
  intros Hsep Hno. apply Index_None_iff in Hno.
  unfold template.Split, strings.Split, strings.genSplit.
  rewrite (Count_no_instance _ _ Hsep Hno).
  apply String.eqb_neq in Hsep. rewrite Hsep. cbn [Z.eqb Z.ltb Z.compare].
  replace (Z.of_nat (String.length s) + 1 <? Z.of_nat 0 + 1)%Z with false
    by (symmetry; apply Z.ltb_ge; lia).
  reflexivity.
Qed.

Lemma Split_identity_witness :
  template.Split "a.txt b.txt" "," = ["a.txt b.txt"].
Proof.
  apply Split_identity.
  - discriminate.
  - apply Index_None_iff. reflexivity.
Defined.

(** ** The process environment *)

Lemma Index_byte_app (c : ascii) (k v : string) :
  has_byte c k = false ->
  strings.Index (k +:+ String c v) (String c "") = Some (String.length k).
Proof.
  intros H. induction k as [|x k IH]; simpl in *.
  - destruct (ascii_dec c c) as [_|ne]; [now destruct v | now destruct ne].
  - apply orb_false_iff in H as [Hx Hk]. apply is_byte_false in Hx.
    destruct (ascii_dec c x) as [->|_]; [now destruct Hx|].
    now rewrite (IH Hk).
Qed.

Lemma Index_byte_inv (c : ascii) (s : string) (j : nat) :
  strings.Index s (String c "") = Some j ->
  s = take_str j s +:+ String c (drop_str (S j) s)
  /\ has_byte c (take_str j s) = false.
Proof.
  revert j; induction s as [|x s IH]; intros j H; simpl in H; [discriminate|].
  destruct (ascii_dec c x) as [->|ne].
  - assert (j = 0) as -> by (destruct s; now inversion H).
    simpl. now destruct s.
  - destruct (strings.Index s (String c "")) as [i|] eqn:E; [|discriminate].
    inversion H; subst. destruct (IH i eq_refl) as [Hs Hk].
    split.
    + change (String x s = String x (take_str i s +:+ String c (drop_str (S i) s))).
      now rewrite <- Hs.
    + simpl. rewrite Hk, orb_false_r. apply is_byte_false. congruence.
Qed.

Lemma Index_byte_None (c : ascii) (s : string) :
  strings.Index s (String c "") = None <-> has_byte c s = false.
Proof.
  induction s as [|x s IH]; simpl; [tauto|].
  destruct (ascii_dec c x) as [->|ne].
  - rewrite is_byte_refl. simpl. split; [now destruct s | discriminate].
  - assert (is_byte x c = false) as -> by (apply is_byte_false; congruence).
    simpl. rewrite <- IH.
    destruct (strings.Index s (String c "")); simpl; split; congruence.
Qed.

Lemma take_str_app_byte (k : string) (c : ascii) (v : string) :
  take_str (String.length k) (k +:+ String c v) = k.
Proof. apply take_str_app. Qed.

Lemma drop_str_app_byte (k : string) (c : ascii) (v : string) :
  drop_str (S (String.length k)) (k +:+ String c v) = v.
Proof. induction k as [|x k IH]; simpl; [now destruct v | exact IH]. Qed.

Lemma entry_cut_assignment (k v : string) :
  has_byte "=" k = false -> os.entry_cut (assignment k v) = Some (k, v).
Proof.
  intros H. unfold os.entry_cut, assignment.
  change ("=" +:+ v) with (String "=" v).
  rewrite (Index_byte_app _ _ _ H).
  now rewrite take_str_app_byte, drop_str_app_byte.
Qed.

Lemma entry_cut_inv (s k v : string) :
  os.entry_cut s = Some (k, v) -> s = assignment k v /\ has_byte "=" k = false.
Proof.
  unfold os.entry_cut. destruct (strings.Index s "=") as [j|] eqn:E; [|discriminate].
  intros H; inversion H; subst. apply Index_byte_inv in E as [Hs Hk].
  now split.
Qed.

Lemma entry_cut_None (s : string) :
  os.entry_cut s = None <-> has_byte "=" s = false.
Proof.
  unfold os.entry_cut. rewrite <- Index_byte_None.
  destruct (strings.Index s "="); split; congruence.
Qed.

Lemma SplitN_assignment (s : string) :
  strings.SplitN s "=" 2 =
  match os.entry_cut s with Some (k, v) => [k; v] | None => [s] end.
Proof.
  unfold strings.SplitN, strings.genSplit, os.entry_cut.
  cbn [Z.eqb String.eqb Ascii.eqb Bool.eqb Z.ltb Z.compare].
  destruct s as [|c s].
  - reflexivity.
  - replace (Z.of_nat (String.length (String c s)) + 1 <? 2)%Z with false
      by (symmetry; apply Z.ltb_ge; simpl; lia).
    change (Z.to_nat (2 - 1)) with 1. cbn [strings.splitLoop].
    destruct (strings.Index (String c s) "=") as [m|]; [|reflexivity].
    now rewrite Nat.add_0_r, Nat.add_1_r.
Qed.

(** One round of the loop of [getEnvMap]: an assignment adds its entry,
    another string stops the run. *)
Lemma step_spec (envs : list string) (m : gmap string string) (e : string) :
  main.step envs m e =
  match os.entry_cut e with
  | Some (k, v) => Some (<[k := main.lateExpand envs v]> m)
  | None => None
  end.
Proof.
  unfold main.step. rewrite SplitN_assignment.
  now destruct (os.entry_cut e) as [[k v]|].
Qed.

Lemma entry_cut_empty : os.entry_cut "" = None.
Proof. reflexivity. Qed.

Lemma keys_cons (e : string) (l : list string) :
  keys (e :: l) =
  match os.entry_cut e with Some (k, _) => k :: keys l | None => keys l end.
Proof. unfold keys. simpl. now destruct (os.entry_cut e) as [[k v]|]. Qed.

(** After [copyenv] no key is mentioned twice. *)
Lemma copyenv_keys (seen : gset string) (envs : list string) :
  NoDup (keys (os.copyenv seen envs))
  /\ (forall k, k ∈ keys (os.copyenv seen envs) -> k ∉ seen).
Proof.
  revert seen; induction envs as [|s envs IH]; intros seen; simpl.
  - split; [constructor | intros k H; inversion H].
  - destruct (os.entry_cut s) as [[key v]|] eqn:E.
    + destruct (decide (key ∈ seen)) as [Hin|Hnin].
      * rewrite keys_cons, entry_cut_empty. apply IH.
      * rewrite keys_cons, E.
        destruct (IH ({[key]} ∪ seen)) as [Hnd Hfresh]. split.
        -- constructor; [|exact Hnd]. intros Hk.
           apply Hfresh in Hk. apply Hk, elem_of_union_l, elem_of_singleton.
           reflexivity.
        -- intros k Hk. apply elem_of_cons in Hk as [->|Hk]; [exact Hnin|].
           apply Hfresh in Hk. intros Hs. apply Hk, elem_of_union_r, Hs.
    + rewrite keys_cons, E. apply IH.
Qed.

Lemma keys_filter_nonempty (l : list string) :
  keys (filter (λ s, s ≠ "") l) = keys l.
Proof.
  induction l as [|e l IH]; [reflexivity|].
  rewrite filter_cons. destruct (decide (e ≠ "")) as [Hne|He].
  - now rewrite !keys_cons, IH.
  - apply dec_stable in He. subst e. now rewrite keys_cons, entry_cut_empty.
Qed.

Lemma Environ_keys_NoDup (envs : list string) : NoDup (keys (os.Environ envs)).
Proof.
  unfold os.Environ. rewrite keys_filter_nonempty. apply copyenv_keys.
Qed.

Lemma lookupenv_filter_nonempty (k : string) (l : list string) :
  os.lookupenv k (filter (λ s, s ≠ "") l) = os.lookupenv k l.
Proof.
  induction l as [|e l IH]; [reflexivity|].
  rewrite filter_cons. destruct (decide (e ≠ "")) as [Hne|He].
  - simpl. now rewrite IH.
  - apply dec_stable in He. subst e. exact IH.
Qed.

Lemma elem_of_keys (k : string) (l : list string) :
  k ∈ keys l <-> exists v, assignment k v ∈ l /\ has_byte "=" k = false.
Proof.
  induction l as [|e l IH].
  - split; [intros H; inversion H | intros (v & H & _); inversion H].
  - rewrite keys_cons. destruct (os.entry_cut e) as [[k0 v0]|] eqn:E.
    + apply entry_cut_inv in E as [-> Hk0]. rewrite elem_of_cons, IH. split.
      * intros [->|(v & Hv & Hk)].
        -- exists v0. split; [left | exact Hk0].
        -- exists v. split; [now right | exact Hk].
      * intros (v & Hv & Hk). apply elem_of_cons in Hv as [Hv|Hv].
        -- left. pose proof (entry_cut_assignment k v Hk) as E1.
           rewrite Hv, (entry_cut_assignment k0 v0 Hk0) in E1. congruence.
        -- right. now exists v.
    + rewrite IH. split; intros (v & Hv & Hk); exists v; (split; [|exact Hk]).
      * now right.
      * apply elem_of_cons in Hv as [Hv|Hv]; [|exact Hv].
        rewrite <- Hv, (entry_cut_assignment k v Hk) in E. discriminate.
Qed.

(** A variable whose key is mentioned once is found with its value. *)
Lemma lookupenv_elem (k v : string) (l : list string) :
  NoDup (keys l) -> assignment k v ∈ l -> has_byte "=" k = false ->
  os.lookupenv k l = Some v.
Proof.
  intros Hnd Hin Hk. induction l as [|e l IH]; [inversion Hin|].
  rewrite keys_cons in Hnd. simpl.
  apply elem_of_cons in Hin as [<-|Hin].
  - rewrite (entry_cut_assignment k v Hk), String.eqb_refl. reflexivity.
  - destruct (os.entry_cut e) as [[k0 v0]|] eqn:E.
    + apply NoDup_cons in Hnd as [Hk0 Hnd].
      destruct (String.eqb_spec k0 k) as [->|_]; [|now apply IH].
      destruct Hk0. apply elem_of_keys. now exists v.
    + now apply IH.
Qed.

Lemma lookupenv_Some (k v : string) (l : list string) :
  os.lookupenv k l = Some v -> assignment k v ∈ l.
Proof.
  induction l as [|e l IH]; simpl; [discriminate|].
  destruct (os.entry_cut e) as [[k0 v0]|] eqn:E.
  - destruct (String.eqb_spec k0 k) as [->|_].
    + intros H; inversion H; subst. apply entry_cut_inv in E as [-> _]. left.
    + intros H. right. now apply IH.
  - intros H. right. now apply IH.
Qed.

(** [Getenv] reads the entries that [Environ] returns. *)
Lemma Getenv_Environ (envs : list string) (key : string) :
  os.Getenv envs key =
  if String.eqb key "" then "" else default "" (os.lookupenv key (os.Environ envs)).
Proof.
  unfold os.Getenv, os.Environ. now rewrite lookupenv_filter_nonempty.
Qed.

Lemma Getenv_present (envs : list string) (k v : string) :
  assignment k v ∈ os.Environ envs -> has_byte "=" k = false -> k <> "" ->
  os.Getenv envs k = v.
Proof.
  intros Hin Hk Hne. rewrite Getenv_Environ.
  apply String.eqb_neq in Hne. rewrite Hne.
  now rewrite (lookupenv_elem k v _ (Environ_keys_NoDup envs) Hin Hk).
Qed.


(** ** The loop of the context builder *)

Lemma loop_None (envs l : list string) :
  foldl (λ acc e, acc ≫= λ m, main.step envs m e) None l = None.
Proof. induction l as [|e l IH]; [reflexivity | exact IH]. Qed.

(** Over assignments with distinct keys the loop ends with a map that holds
    the late expansion of every value under its key, and nothing else that
    is new. *)
Lemma loop_lookup (envs l : list string) (m : gmap string string) :
  NoDup (keys l) -> forallb (has_byte "=") l = true ->
  exists m',
    foldl (λ acc e, acc ≫= λ m, main.step envs m e) (Some m) l = Some m'
    /\ (forall k v, assignment k v ∈ l -> has_byte "=" k = false ->
                    m' !! k = Some (main.lateExpand envs v))
    /\ (forall k, k ∉ keys l -> m' !! k = m !! k).
Proof.
  revert m; induction l as [|e l IH]; intros m Hnd Hwf.
  - exists m. split; [reflexivity|]. split; [|reflexivity].
    intros k v H; inversion H.
  - simpl in Hwf. apply andb_true_iff in Hwf as [He Hwf].
    rewrite keys_cons in Hnd.
    destruct (os.entry_cut e) as [[k0 v0]|] eqn:E.
    2:{ apply entry_cut_None in E. congruence. }
    apply NoDup_cons in Hnd as [Hk0 Hnd].
    destruct (IH (<[k0 := main.lateExpand envs v0]> m) Hnd Hwf)
      as (m' & Hrun & Hin & Hout).
    exists m'. split; [simpl; rewrite step_spec, E; exact Hrun|].
    pose proof (entry_cut_inv _ _ _ E) as [-> Hk0eq]. split.
    + intros k v Hkv Hk. apply elem_of_cons in Hkv as [Hkv|Hkv].
      * pose proof (entry_cut_assignment k v Hk) as E1.
        rewrite Hkv, E in E1. inversion E1; subst.
        rewrite (Hout _ Hk0). apply lookup_insert_eq.
      * now apply Hin.
    + intros k Hk. rewrite keys_cons, E in Hk.
      apply not_elem_of_cons in Hk as [Hne Hk].
      rewrite (Hout _ Hk). now apply lookup_insert_ne.
Qed.

(** In an environment of assignments [getEnvMap] returns a context, whose
    keys are the names of the variables and whose values are the late
    expansions of their raw values. *)
Lemma getEnvMap_lookup (envs : list string) :
  wellFormed envs = true ->
  exists ctx,
    main.getEnvMap envs = Some ctx
    /\ (forall k v, assignment k v ∈ os.Environ envs -> has_byte "=" k = false ->
                    ctx !! k = Some (main.lateExpand envs v))
    /\ (forall k, k ∉ keys (os.Environ envs) -> ctx !! k = None).
Proof.
  intros Hwf.
  destruct (loop_lookup envs (os.Environ envs) ∅ (Environ_keys_NoDup envs) Hwf)
    as (ctx & Hrun & Hin & Hout).
  exists ctx. split; [exact Hrun|]. split; [exact Hin|].
  intros k Hk. now rewrite (Hout k Hk).
Qed.

(** A string that is no assignment stops the run. *)
Lemma loop_stops (envs l : list string) (acc : option (gmap string string)) :
  forallb (has_byte "=") l = false ->
  foldl (λ acc e, acc ≫= λ m, main.step envs m e) acc l = None.
Proof.
  revert acc; induction l as [|e l IH]; intros acc H; [discriminate|].
  simpl in H. apply andb_false_iff in H as [He|Hl].
  - simpl. destruct acc as [m|]; simpl; [|apply loop_None].
    apply entry_cut_None in He. rewrite step_spec, He. apply loop_None.
  - simpl. now apply IH.
Qed.

(** ** The rewriting of the markers and the expansion *)

Ltac each_byte c :=
  destruct c as [[] [] [] [] [] [] [] []]; vm_compute; try reflexivity; try discriminate.

Lemma name_byte_not_percent (c : ascii) :
  regexp.isMarkerNameByte c = true -> is_byte c "%" = false.
Proof. each_byte c. Qed.

Lemma name_byte_not_brace (c : ascii) :
  regexp.isMarkerNameByte c = true -> is_byte c "}" = false.
Proof. each_byte c. Qed.

Lemma name_byte_not_eq (c : ascii) :
  regexp.isMarkerNameByte c = true -> is_byte c "=" = false.
Proof. each_byte c. Qed.

Lemma isMarkerName_inv (n : string) :
  isMarkerName n = true -> n <> "" /\ all_bytes regexp.isMarkerNameByte n = true.
Proof.
  unfold isMarkerName. intros H. apply andb_true_iff in H as [Hne Hall].
  split; [|exact Hall]. apply negb_true_iff in Hne. now apply String.eqb_neq.
Qed.

Lemma all_bytes_has_byte (p : ascii -> bool) (d : ascii) (n : string) :
  (forall c, p c = true -> is_byte c d = false) ->
  all_bytes p n = true -> has_byte d n = false.
Proof.
  intros Hp. unfold all_bytes. induction n as [|x n IH]; simpl; [reflexivity|].
  intros H. apply andb_true_iff in H as [Hx Hn]. now rewrite (Hp x Hx), IH.
Qed.

Lemma marker_name_no_eq (n : string) :
  isMarkerName n = true -> has_byte "=" n = false.
Proof.
  intros H. apply isMarkerName_inv in H as [_ H].
  exact (all_bytes_has_byte _ _ _ name_byte_not_eq H).
Qed.

(** The template [${$VARNAME}] expands to the name between [${] and [}]:
    its first [$] is followed by no name and stays as it is. *)
Lemma expand_template (whole name : string) :
  regexp.expand [("", Some whole); ("VARNAME", Some name)] 0 "${$VARNAME}"
  = "${" +:+ name +:+ "}".
Proof. reflexivity. Qed.

Lemma expandLoop_skip (m : string -> string) (k : nat) (s : string) :
  os.expandLoop m k s = os.expandLoop m 0 (drop_str k s).
Proof.
  revert k; induction s as [|c s IH]; intros [|k]; try reflexivity.
  simpl. apply IH.
Qed.

Lemma replaceAllLoop_skip (repl : string) (k : nat) (s : string) :
  regexp.replaceAllLoop repl k s = regexp.replaceAllLoop repl 0 (drop_str k s).
Proof.
  revert k; induction s as [|c s IH]; intros [|k]; try reflexivity.
  simpl. apply IH.
Qed.

(** A byte that is not a dollar sign is copied by [Expand]. *)
Lemma expandLoop_byte (m : string -> string) (c : ascii) (s : string) :
  is_byte c "$" = false ->
  os.expandLoop m 0 (String c s) = String c (os.expandLoop m 0 s).
Proof. intros H. simpl. now rewrite H. Qed.

Lemma getShellName_braced (n s : string) :
  isMarkerName n = true ->
  os.getShellName ("{" +:+ n +:+ "}" +:+ s) = (n, String.length n + 2).
Proof.
  intros H. apply isMarkerName_inv in H as [Hne Hall].
  pose proof (all_bytes_has_byte _ _ _ name_byte_not_brace Hall) as Hb.
  assert (Hscan : os.scanBrace (n +:+ String "}" s) = (n, String.length n + 2)).
  { unfold os.scanBrace. rewrite (Index_byte_app _ _ _ Hb).
    destruct n as [|c1 n']; [now destruct Hne|].
    cbn [String.length]. now rewrite <- (take_str_app_byte (String c1 n') "}" s) at 2. }
  change ("{" +:+ n +:+ "}" +:+ s) with (String "{" (n +:+ String "}" s)).
  cbn [os.getShellName]. rewrite is_byte_refl.
  destruct n as [|c1 n']; [now destruct Hne|].
  destruct n' as [|c2 n''].
  - cbn [String.append]. rewrite is_byte_refl, andb_true_r.
    destruct (os.isShellSpecialVar c1); [reflexivity | exact Hscan].
  - cbn [String.append].
    simpl in Hb. apply orb_false_iff in Hb as [_ Hb].
    apply orb_false_iff in Hb as [Hc2 _]. rewrite Hc2, andb_false_r.
    exact Hscan.
Qed.

(** A reference [${name}] is replaced by the value that the mapping gives
    for the name, and the expansion goes on after the closing brace. *)
Lemma expandLoop_reference (m : string -> string) (n s : string) :
  isMarkerName n = true ->
  os.expandLoop m 0 ("${" +:+ n +:+ "}" +:+ s) = m n +:+ os.expandLoop m 0 s.
Proof.
  intros H.
  change ("${" +:+ n +:+ "}" +:+ s) with (String "$" ("{" +:+ n +:+ "}" +:+ s)).
  cbn [os.expandLoop]. rewrite is_byte_refl.
  change (String.eqb ("{" +:+ n +:+ "}" +:+ s) "") with false.
  cbn [negb andb]. rewrite (getShellName_braced n s H).
  apply isMarkerName_inv in H as [Hne _]. apply String.eqb_neq in Hne.
  rewrite Hne. rewrite expandLoop_skip. f_equal. f_equal.
  change ("{" +:+ n +:+ "}" +:+ s) with (String "{" (n +:+ String "}" s)).
  rewrite Nat.add_comm. cbn [Nat.add drop_str]. apply drop_str_app_byte.
Qed.

Lemma expandLoop_ext (m1 m2 : string -> string) (k : nat) (s : string) :
  (forall n, m1 n = m2 n) -> os.expandLoop m1 k s = os.expandLoop m2 k s.
Proof.
  intros Hm. revert k; induction s as [|c s IH]; intros k; [reflexivity|].
  cbn [os.expandLoop]. destruct k as [|k]; [|apply IH].
  destruct (is_byte c "$" && negb (String.eqb s "")).
  - destruct (os.getShellName s) as [name w]. now rewrite Hm, IH.
  - now rewrite IH.
Qed.

(** A text without a dollar sign is its own expansion. *)
Lemma Expand_no_dollar (m : string -> string) (s : string) :
  has_byte "$" s = false -> os.Expand s m = s.
Proof.
  unfold os.Expand. induction s as [|c s IH]; [reflexivity|].
  simpl. intros H. apply orb_false_iff in H as [Hc Hs].
  now rewrite Hc, (IH Hs).
Qed.

Lemma marker_app (n post : string) :
  marker n +:+ post = String "%" (n +:+ String "%" post).
Proof.
  unfold marker. change ("%" +:+ n +:+ "%") with (String "%" (n +:+ "%")).
  cbn [String.append]. now rewrite str_app_assoc.
Qed.

Lemma markerAt_inv (s n : string) :
  regexp.markerAt s = Some n ->
  isMarkerName n = true /\ exists rest, s = marker n +:+ rest.
Proof.
  destruct s as [|c s]; [discriminate|]. cbn [regexp.markerAt].
  destruct (is_byte c "%") eqn:Hc; [|discriminate].
  apply is_byte_true in Hc as ->.
  destruct (span_str regexp.isMarkerNameByte s) as [name after] eqn:E.
  destruct (negb (String.eqb name "")) eqn:Hne; [|discriminate].
  destruct (strings.HasPrefix after "%") eqn:Hp; [|discriminate].
  intros H; inversion H; subst.
  apply span_str_spec in E as (-> & Hall & _).
  apply HasPrefix_inv in Hp as [t ->]. split.
  - unfold isMarkerName, all_bytes. now rewrite Hne, Hall.
  - exists t. now rewrite marker_app.
Qed.

Lemma markerAt_marker (n post : string) :
  isMarkerName n = true -> regexp.markerAt (marker n +:+ post) = Some n.
Proof.
  intros H. rewrite marker_app. cbn [regexp.markerAt]. rewrite is_byte_refl.
  unfold isMarkerName in H. apply andb_true_iff in H as [Hne Hall].
  rewrite (span_str_run _ n "%" post Hall eq_refl), Hne.
  change (String "%" post) with ("%" +:+ post).
  now rewrite (HasPrefix_app "%" post).
Qed.

Lemma span_str_app_stop (p : ascii -> bool) (a b n after : string) (x : ascii) :
  span_str p a = (n, String x after) ->
  span_str p (a +:+ b) = (n, String x after +:+ b).
Proof.
  revert n; induction a as [|c a IH]; intros n H; simpl in H; [discriminate|].
  cbn [String.append span_str]. destruct (p c).
  - destruct (span_str p a) as [n' after'] eqn:E. inversion H; subst.
    now rewrite (IH _ eq_refl).
  - now inversion H; subst.
Qed.

Lemma span_str_app_all (p : ascii -> bool) (a b n : string) (d : ascii) :
  span_str p a = (n, "") -> p d = false ->
  n = a /\ span_str p (a +:+ String d b) = (a, String d b).
Proof.
  revert n; induction a as [|c a IH]; intros n H Hd; simpl in H.
  - inversion H; subst. simpl. now rewrite Hd.
  - cbn [String.append span_str]. destruct (p c); [|discriminate].
    destruct (span_str p a) as [n' after'] eqn:E. inversion H; subst.
    destruct (IH _ eq_refl Hd) as [-> ->]. now split.
Qed.

Lemma HasPrefix_byte (x d : ascii) (a : string) :
  strings.HasPrefix (String x a) (String d "") = is_byte d x.
Proof.
  unfold strings.HasPrefix. simpl. destruct (ascii_dec d x) as [->|ne].
  - rewrite is_byte_refl. now destruct a.
  - symmetry. now apply is_byte_false.
Qed.

(** A marker that begins in [pre] ends in [pre], unless [pre] ends with a
    percent sign and a name. *)
Lemma markerAt_app (c : ascii) (pre rest : string) :
  is_byte c "%" && isMarkerName pre = false ->
  regexp.markerAt (String c (pre +:+ String "%" rest))
  = regexp.markerAt (String c pre).
Proof.
  intros H. cbn [regexp.markerAt].
  destruct (is_byte c "%"); [|reflexivity]. simpl in H.
  destruct (span_str regexp.isMarkerNameByte pre) as [n after] eqn:E.
  destruct after as [|x after].
  - destruct (span_str_app_all _ _ rest _ "%" E eq_refl) as [-> ->].
    apply span_str_spec in E as (_ & Hall & _).
    unfold isMarkerName, all_bytes in H. rewrite Hall, andb_true_r in H.
    now rewrite H.
  - rewrite (span_str_app_stop _ _ (String "%" rest) _ _ _ E).
    cbn [String.append]. now rewrite !HasPrefix_byte.
Qed.

Lemma endsInOpenMarker_cons (c : ascii) (pre : string) :
  endsInOpenMarker (String c pre) = false ->
  is_byte c "%" && isMarkerName pre = false /\ endsInOpenMarker pre = false.
Proof. simpl. intros H. now apply orb_false_iff in H. Qed.

(** The rewriting and the expansion of a text that is followed by a percent
    sign do not depend on what follows, when the text holds no dollar sign
    and does not end with a percent sign and a name. *)
Lemma lateExpand_app_loop (m : string -> string) (pre rest : string) (k : nat) :
  has_byte "$" pre = false -> endsInOpenMarker pre = false ->
  k <= String.length pre ->
  os.expandLoop m 0 (regexp.replaceAllLoop "${$VARNAME}" k (pre +:+ String "%" rest))
  = os.expandLoop m 0 (regexp.replaceAllLoop "${$VARNAME}" k pre)
    +:+ os.expandLoop m 0 (regexp.replaceAllLoop "${$VARNAME}" 0 (String "%" rest)).
Proof.
  revert k; induction pre as [|c pre IH]; intros k Hd Ho Hk.
  - simpl in Hk. now replace k with 0 by lia.
  - simpl in Hd. apply orb_false_iff in Hd as [Hc Hd].
    apply endsInOpenMarker_cons in Ho as [Hm Ho].
    change (String c pre +:+ String "%" rest) with (String c (pre +:+ String "%" rest)).
    cbn [regexp.replaceAllLoop]. destruct k as [|k].
    + rewrite (markerAt_app c pre rest Hm).
      destruct (regexp.markerAt (String c pre)) as [n|] eqn:E.
      * rewrite !expand_template.
        apply markerAt_inv in E as [Hn [t Ht]]. rewrite marker_app in Ht.
        assert (Hlen : String.length n + 1 <= String.length pre).
        { inversion Ht. rewrite str_length_app. simpl. lia. }
        rewrite !str_app_assoc, !(expandLoop_reference m n _ Hn).
        now rewrite (IH _ Hd Ho Hlen), str_app_assoc.
      * rewrite !(expandLoop_byte m c _ Hc). cbn [String.append].
        rewrite IH; [reflexivity | exact Hd | exact Ho | lia].
    + apply IH; [exact Hd | exact Ho | simpl in Hk; lia].
Qed.

(** The value of a text that holds a marker: the value of what precedes the
    marker, the value of the variable that the marker names, and the value
    of what follows the marker. *)
Lemma lateExpand_marker (envs : list string) (pre n post : string) :
  has_byte "$" pre = false -> endsInOpenMarker pre = false ->
  isMarkerName n = true ->
  main.lateExpand envs (pre +:+ marker n +:+ post)
  = main.lateExpand envs pre +:+ os.Getenv envs n +:+ main.lateExpand envs post.
Proof.
  intros Hd Ho Hn.
  unfold main.lateExpand, os.ExpandEnv, os.Expand, regexp.ReplaceAll.
  rewrite marker_app, (lateExpand_app_loop _ _ _ 0 Hd Ho) by lia.
  f_equal. rewrite <- marker_app.
  destruct (marker n +:+ post) as [|c s] eqn:E; [now rewrite marker_app in E|].
  cbn [regexp.replaceAllLoop]. rewrite <- E, (markerAt_marker n post Hn), expand_template.
  rewrite !str_app_assoc, (expandLoop_reference _ n _ Hn). f_equal.
  rewrite replaceAllLoop_skip. f_equal.
  rewrite marker_app in E. inversion E; subst.
  rewrite Nat.add_comm. cbn [Nat.add]. now rewrite drop_str_app_byte.
Qed.

(** A text without a marker is rewritten to itself. *)
Lemma ReplaceAll_no_marker (repl s : string) :
  containsMarker s = false -> regexp.ReplaceAll s repl = s.
Proof.
  unfold regexp.ReplaceAll. induction s as [|c s IH]; [reflexivity|].
  cbn [containsMarker regexp.replaceAllLoop]. intros H.
  apply orb_false_iff in H as [Hm Hs].
  destruct (regexp.markerAt (String c s)) as [n|].
  - now rewrite bool_decide_eq_false in Hm; destruct Hm.
  - now rewrite (IH Hs).
Qed.


(** ** The template context *)

(** A decidable fact about closed terms, by evaluation. *)
Ltac by_compute := apply (bool_decide_unpack _); vm_compute; exact I.

Lemma lateExpand_plain (envs : list string) (v : string) :
  containsMarker v = false -> main.lateExpand envs v = os.ExpandEnv envs v.
Proof.
  intros H. unfold main.lateExpand. now rewrite (ReplaceAll_no_marker _ _ H).
Qed.

(** The context entry of a value that holds a marker. *)
Lemma context_at_marker (envs : list string) (k pre n post : string) :
  wellFormed envs = true ->
  assignment k (pre +:+ marker n +:+ post) ∈ os.Environ envs ->
  has_byte "=" k = false ->
  isMarkerName n = true ->
  has_byte "$" pre = false ->
  endsInOpenMarker pre = false ->
  exists ctx,
    main.getEnvMap envs = Some ctx
    /\ ctx !! k = Some (main.lateExpand envs pre
                        +:+ os.Getenv envs n
                        +:+ main.lateExpand envs post).
Proof.
  intros Hwf Hin Hk Hn Hd Ho.
  destruct (getEnvMap_lookup envs Hwf) as (ctx & Hrun & Hctx & _).
  exists ctx. split; [exact Hrun|].
  now rewrite (Hctx _ _ Hin Hk), (lateExpand_marker envs pre n post Hd Ho Hn).
Qed.




(** C2, as amended. The raw value [x%A%y] of [A] gives [xx%A%yy]: the
    marker is replaced by the raw value, once. *)
Theorem self_reference_example (envs : list string) :
  wellFormed envs = true ->
  "A=x%A%y" ∈ os.Environ envs ->
  exists ctx, main.getEnvMap envs = Some ctx /\ ctx !! "A" = Some "xx%A%yy".
Proof.
  intros Hwf Hin.
  destruct (context_at_marker envs "A" "x" "A" "y" Hwf Hin eq_refl eq_refl eq_refl eq_refl)
    as (ctx & Hrun & Hctx).
  exists ctx. split; [exact Hrun|].
  rewrite Hctx, (Getenv_present envs "A" "x%A%y" Hin eq_refl); [reflexivity|].
  discriminate.
Qed.

Lemma self_reference_example_witness :
  exists ctx,
    main.getEnvMap ["A=x%A%y"; "TERM=xterm"] = Some ctx
    /\ ctx !! "A" = Some "xx%A%yy".
Proof.
  apply (self_reference_example ["A=x%A%y"; "TERM=xterm"]).
  - reflexivity.
  - by_compute.
Defined.

(** C2, as stated, fails: the context does not map [A] to [xy]. *)
Lemma self_reference_not_xy :
  ~ exists ctx, main.getEnvMap ["A=x%A%y"] = Some ctx /\ ctx !! "A" = Some "xy".
Proof.
  intros (ctx & Hrun & HA).
  assert (E : main.getEnvMap ["A=x%A%y"] = Some {[ "A" := "xx%A%yy" ]}) by reflexivity.
  rewrite E in Hrun. inversion Hrun; subst. discriminate HA.
Qed.

(** C3, as amended. A raw value without a marker is not rewritten: the
    context holds its expansion by [os.ExpandEnv], which replaces [$NAME]
    and [${NAME}], and holds the raw value itself when it has no dollar
    sign. *)
Theorem value_without_marker (envs : list string) (k v : string) :
  wellFormed envs = true ->
  assignment k v ∈ os.Environ envs ->
  has_byte "=" k = false ->
  containsMarker v = false ->
  exists ctx,
    main.getEnvMap envs = Some ctx
    /\ ctx !! k = Some (os.ExpandEnv envs v)
    /\ (has_byte "$" v = false -> ctx !! k = Some v).
Proof.
  intros Hwf Hin Hk Hm.
  destruct (getEnvMap_lookup envs Hwf) as (ctx & Hrun & Hctx & _).
  exists ctx. split; [exact Hrun|].
  rewrite (Hctx _ _ Hin Hk), (lateExpand_plain envs v Hm).
  split; [reflexivity|]. intros Hd.
  unfold os.ExpandEnv. now rewrite (Expand_no_dollar _ _ Hd).
Qed.

Lemma value_without_marker_witness :
  exists ctx,
    main.getEnvMap ["RATE=100% sure"; "USER=ana"; "GREETING=hi $USER"] = Some ctx
    /\ ctx !! "RATE" = Some "100% sure"
    /\ (has_byte "$" "100% sure" = false -> ctx !! "RATE" = Some "100% sure").
Proof.
  apply (value_without_marker
           ["RATE=100% sure"; "USER=ana"; "GREETING=hi $USER"] "RATE" "100% sure").
  - reflexivity.
  - by_compute.
  - reflexivity.
  - reflexivity.
Defined.

(** C3, as stated, fails for a value with a dollar sign: [a$b] holds no
    marker and the context does not hold it as it is. *)
Lemma value_with_dollar_changes :
  containsMarker "a$b" = false
  /\ main.getEnvMap ["C=a$b"] = Some {[ "C" := "a" ]}.
Proof. split; reflexivity. Qed.




(** ** Independence from the order of the environment *)

Lemma keys_Permutation (l1 l2 : list string) : l1 ≡ₚ l2 -> keys l1 ≡ₚ keys l2.
Proof. intros H. unfold keys. now rewrite H. Qed.

Lemma lookupenv_Some_key (k v : string) (l : list string) :
  os.lookupenv k l = Some v -> has_byte "=" k = false.
Proof.
  induction l as [|e l IH]; simpl; [discriminate|].
  destruct (os.entry_cut e) as [[k0 v0]|] eqn:E; [|exact IH].
  destruct (String.eqb_spec k0 k) as [->|_]; [|exact IH].
  intros _. now apply entry_cut_inv in E.
Qed.

Lemma lookupenv_Permutation (k : string) (l1 l2 : list string) :
  NoDup (keys l1) -> l1 ≡ₚ l2 -> os.lookupenv k l1 = os.lookupenv k l2.
Proof.
  intros Hnd Hp.
  assert (Hnd2 : NoDup (keys l2)) by now rewrite <- (keys_Permutation _ _ Hp).
  assert (Hto : forall la lb v, NoDup (keys lb) -> la ≡ₚ lb ->
                  os.lookupenv k la = Some v -> os.lookupenv k lb = Some v).
  { intros la lb v Hb Hab H. apply lookupenv_elem; [exact Hb| |].
    - rewrite <- Hab. now apply lookupenv_Some.
    - now apply lookupenv_Some_key in H. }
  destruct (os.lookupenv k l1) as [v|] eqn:E1.
  - symmetry. now apply (Hto l1 l2).
  - destruct (os.lookupenv k l2) as [v|] eqn:E2; [|reflexivity].
    apply (Hto l2 l1 v Hnd (symmetry Hp)) in E2. congruence.
Qed.

Lemma lateExpand_ext (envs1 envs2 : list string) (v : string) :
  (forall k, os.Getenv envs1 k = os.Getenv envs2 k) ->
  main.lateExpand envs1 v = main.lateExpand envs2 v.
Proof.
  intros H. unfold main.lateExpand, os.ExpandEnv, os.Expand.
  now apply expandLoop_ext.
Qed.

Lemma loop_ext (envs1 envs2 l : list string) (acc : option (gmap string string)) :
  (forall k, os.Getenv envs1 k = os.Getenv envs2 k) ->
  foldl (λ acc e, acc ≫= λ m, main.step envs1 m e) acc l
  = foldl (λ acc e, acc ≫= λ m, main.step envs2 m e) acc l.
Proof.
  intros H. revert acc; induction l as [|e l IH]; intros acc; [reflexivity|].
  simpl. rewrite IH. f_equal. destruct acc as [m|]; [|reflexivity].
  simpl. rewrite !step_spec. destruct (os.entry_cut e) as [[k v]|]; [|reflexivity].
  now rewrite (lateExpand_ext envs1 envs2 v H).
Qed.

(** The loop over two orders of the same assignments, with distinct keys,
    ends in the same way. *)
Lemma loop_Permutation (envs l1 l2 : list string) (acc : option (gmap string string)) :
  NoDup (keys l1) -> l1 ≡ₚ l2 ->
  foldl (λ acc e, acc ≫= λ m, main.step envs m e) acc l1
  = foldl (λ acc e, acc ≫= λ m, main.step envs m e) acc l2.
Proof.
  intros Hnd Hp. revert acc. induction Hp as [|x l l' Hp IH|x y l|l l' l'' Hp1 IH1 Hp2 IH2];
    intros acc.
  - reflexivity.
  - simpl. apply IH. rewrite keys_cons in Hnd.
    destruct (os.entry_cut x) as [[k v]|]; [|exact Hnd].
    now apply NoDup_cons in Hnd.
  - simpl. f_equal. destruct acc as [m|]; [|reflexivity]. simpl.
    rewrite !step_spec. rewrite !keys_cons in Hnd.
    destruct (os.entry_cut x) as [[kx vx]|] eqn:Ex,
             (os.entry_cut y) as [[ky vy]|] eqn:Ey;
      simpl; rewrite ?step_spec, ?Ex, ?Ey; try reflexivity.
    f_equal. apply insert_insert_ne.
    apply NoDup_cons in Hnd as [Hne _]. intros ->. apply Hne. left.
  - rewrite (IH1 Hnd). apply IH2.
    now rewrite <- (keys_Permutation _ _ Hp1).
Qed.

(** C5. The context does not depend on the order in which the environment
    is enumerated: two environment blocks whose entries, as [os.Environ]
    returns them, are the same up to their order give the same result. *)
Theorem getEnvMap_order_independent (envs1 envs2 : list string) :
  os.Environ envs1 ≡ₚ os.Environ envs2 ->
  main.getEnvMap envs1 = main.getEnvMap envs2.
Proof.
  intros Hp. unfold main.getEnvMap.
  rewrite (loop_ext envs1 envs2).
  - apply loop_Permutation; [apply Environ_keys_NoDup | exact Hp].
  - intros k. rewrite !Getenv_Environ.
    now rewrite (lookupenv_Permutation k _ _ (Environ_keys_NoDup envs1) Hp).
Qed.

Lemma getEnvMap_order_independent_witness :
  main.getEnvMap ["A=1"; "B=%A%"] = main.getEnvMap ["B=%A%"; "A=1"]
  /\ main.getEnvMap ["B=%A%"; "A=1"] = Some {[ "A" := "1"; "B" := "1" ]}.
Proof.
  split; [|reflexivity].
  apply (getEnvMap_order_independent ["A=1"; "B=%A%"] ["B=%A%"; "A=1"]).
  apply perm_swap.
Defined.

(** ** The context filter *)

Lemma Sprintf_invalid_pattern (pattern e : string) :
  fmt.Sprintf "Invalid pattern: %s - error: %v" [fmt.Str pattern; fmt.Err e]
  = "Invalid pattern: " +:+ pattern +:+ " - error: " +:+ e.
Proof.
  cbn [fmt.Sprintf is_byte Ascii.eqb Bool.eqb orb fmt.verb String.append].
  now rewrite str_app_nil_r.
Qed.

(** An expression that matches a text from its first rune to its last
    matches in the text. *)
Lemma FullMatch_MatchString (re : regexp.Regexp) (s : string) :
  regexp.FullMatch re s = true -> regexp.MatchString re s = true.
Proof.
  unfold regexp.FullMatch, regexp.MatchString. intros H.
  apply existsb_exists in H as (j & Hj & _).
  apply existsb_exists. exists 0. split; [apply in_seq; lia|].
  apply negb_true_iff, bool_decide_eq_false. intros E. now rewrite E in Hj.
Qed.

Section Filter_properties.

Variable Compile : string -> regexp.Regexp + regexp.Error.

(** The loop of [Filter] copies the entries whose key the expression
    matches, with their values, and no other entry. *)
Lemma Filter_loop_lookup (exp : regexp.Regexp) (t : gmap string string) (k : string) :
  map_fold (λ k v (rv : gmap string string),
              if regexp.MatchString exp k then <[k := v]> rv else rv) ∅ t !! k
  = if regexp.MatchString exp k then t !! k else None.
Proof.
  revert k. apply (map_fold_weak_ind (λ rv (t : gmap string string), forall k,
    rv !! k = if regexp.MatchString exp k then t !! k else None)).
  - intros k. rewrite !lookup_empty. now destruct (regexp.MatchString exp k).
  - intros i x m r Hi IH k. destruct (decide (i = k)) as [->|Hne].
    + rewrite lookup_insert_eq. destruct (regexp.MatchString exp k) eqn:E.
      * apply lookup_insert_eq.
      * now rewrite IH, E.
    + rewrite (lookup_insert_ne m _ _ _ Hne).
      destruct (regexp.MatchString exp i); [rewrite lookup_insert_ne by exact Hne|];
        apply IH.
Qed.

(** C6, as amended. For a pattern that compiles, [Filter] returns a
    context that holds exactly the entries of [t] whose key contains a
    match of the pattern, each with its value; the entries whose key the
    pattern matches in full are among them.  It writes no diagnostic. *)
Theorem Filter_keeps_matching_keys (t : gmap string string) (pattern : string)
    (exp : regexp.Regexp) (w : World) :
  Compile pattern = inl exp ->
  exists rv,
    lib.Filter Compile t pattern w = (rv, w)
    /\ (forall k, rv !! k = if regexp.MatchString exp k then t !! k else None)
    /\ (forall k, regexp.FullMatch exp k = true -> rv !! k = t !! k).
Proof.
  intros Hc. unfold lib.Filter. rewrite Hc.
  eexists. split; [reflexivity|]. split.
  - apply Filter_loop_lookup.
  - intros k Hk. rewrite Filter_loop_lookup.
    now rewrite (FullMatch_MatchString _ _ Hk).
Qed.

(** C7. For a pattern that does not compile, [Filter] writes the error to
    the diagnostic stream and returns the empty context. *)
Theorem Filter_invalid_pattern (t : gmap string string) (pattern : string)
    (err : regexp.Error) (w : World) :
  Compile pattern = inr err ->
  lib.Filter Compile t pattern w
  = (∅, {| files := files w;
           stderr := stderr w ++ ["Invalid pattern: " +:+ pattern +:+ " - error: "
                                  +:+ regexp.Error_text err] |}).
Proof.
  intros Hc. unfold lib.Filter. rewrite Hc.
  unfold mbind, IO_bind, fmt.Fprintf_Stderr, mret, IO_ret.
  now rewrite Sprintf_invalid_pattern.
Qed.

End Filter_properties.

(** The sample context of the examples. *)
Lemma Filter_keeps_matching_keys_witness :
  exists rv,
    lib.Filter syntax.Compile
      {[ "VAULT_SECRET_1" := "secret/a;key;a.json";
         "VAULT_SECRET_2" := "secret/b;key;b.json";
         "OTHER" := "x" ]}
      "^VAULT_SECRET_\d+$" (mkWorld (λ _, ("", None)) []) = (rv, mkWorld (λ _, ("", None)) [])
    /\ rv = {[ "VAULT_SECRET_1" := "secret/a;key;a.json";
               "VAULT_SECRET_2" := "secret/b;key;b.json" ]}.
Proof.
  destruct (Filter_keeps_matching_keys syntax.Compile
              {[ "VAULT_SECRET_1" := "secret/a;key;a.json";
                 "VAULT_SECRET_2" := "secret/b;key;b.json";
                 "OTHER" := "x" ]}
              "^VAULT_SECRET_\d+$"
              (match syntax.Compile "^VAULT_SECRET_\d+$" with
               | inl exp => exp
               | inr _ => regexp.NoMatch
               end)
              (mkWorld (λ _, ("", None)) []) eq_refl) as (rv & Hrun & _).
  exists rv. split; [exact Hrun|].
  vm_compute in Hrun. now inversion Hrun.
Defined.

(** C6, as stated, fails: a key that the pattern matches in a proper part
    only is kept. The pattern is the one of the sample template. *)
Lemma Filter_keeps_partial_match :
  exists exp,
    syntax.Compile "^FILE_\d" = inl exp
    /\ regexp.FullMatch exp "FILE_1_OLD" = false
    /\ (lib.Filter syntax.Compile {[ "FILE_1" := "a.txt"; "FILE_1_OLD" := "b.txt" ]}
          "^FILE_\d" (mkWorld (λ _, ("", None)) [])).1 !! "FILE_1_OLD" = Some "b.txt".
Proof. eexists. split; [reflexivity|]. split; reflexivity. Qed.

Lemma Filter_invalid_pattern_witness :
  lib.Filter syntax.Compile {[ "FILE_1" := "a.txt" ]} "^FILE_(\d+$"
    (mkWorld (λ _, ("", None)) [])
  = (∅, mkWorld (λ _, ("", None))
          ["Invalid pattern: ^FILE_(\d+$ - error: error parsing regexp: missing closing ): `^FILE_(\d+$`"]).
Proof.
  exact (Filter_invalid_pattern syntax.Compile {[ "FILE_1" := "a.txt" ]} "^FILE_(\d+$"
           (regexp.mkError "missing closing )" "^FILE_(\d+$")
           (mkWorld (λ _, ("", None)) []) eq_refl).
Defined.

(** ** The extended string *)

Lemma Sprintf_read_error (name data : string) :
  fmt.Sprintf "Error reading file %s: %v" [fmt.Str name; fmt.Bytes data]
  = "Error reading file " +:+ name +:+ ": " +:+ fmt.bytes_v data.
Proof.
  cbn [fmt.Sprintf is_byte Ascii.eqb Bool.eqb orb fmt.verb String.append].
  now rewrite str_app_nil_r.
Qed.

(** C9. When the path that the value names cannot be read, [LoadFile]
    writes a diagnostic to the diagnostic stream and returns the empty
    value; it returns normally, whatever the failure is. *)
Theorem LoadFile_read_failure (es : string) (w : World) (data : string) (err : error) :
  files w es = (data, Some err) ->
  template.LoadFile es w
  = ("", {| files := files w;
            stderr := stderr w ++ ["Error reading file " +:+ es +:+ ": "
                                   +:+ fmt.bytes_v data] |}).
Proof.
  intros Hf. unfold template.LoadFile, osfile.ReadFile.
  unfold mbind, IO_bind, fmt.Fprintf_Stderr, mret, IO_ret.
  now rewrite Hf, Sprintf_read_error.
Qed.

Lemma LoadFile_read_failure_witness :
  template.LoadFile "conf/missing.json"
    (mkWorld (λ name, if String.eqb name "conf/a.txt" then ("A", None)
                      else ("", Some ("open " +:+ name +:+ ": no such file or directory")))
             [])
  = ("", mkWorld (λ name, if String.eqb name "conf/a.txt" then ("A", None)
                          else ("", Some ("open " +:+ name +:+ ": no such file or directory")))
                 ["Error reading file conf/missing.json: []"]).
Proof.
  exact (LoadFile_read_failure "conf/missing.json"
           (mkWorld (λ name, if String.eqb name "conf/a.txt" then ("A", None)
                             else ("", Some ("open " +:+ name +:+ ": no such file or directory")))
                    [])
           "" "open conf/missing.json: no such file or directory" eq_refl).
Defined.

(** ** The JSON encoding *)


Ltac split_ifs :=
  repeat match goal with
  | |- context [if ?b then _ else _] => destruct b eqn:?
  end.

Lemma first_cases (b : N) :
  (128 <= b)%N ->
  utf8.first b = 241%N \/
  (utf8.first b = 2 \/ utf8.first b = 19 \/ utf8.first b = 3 \/ utf8.first b = 35
   \/ utf8.first b = 52 \/ utf8.first b = 4 \/ utf8.first b = 68)%N.
Proof.
  intros H. unfold utf8.first.
  replace (b <? 128)%N with false by (symmetry; apply N.ltb_ge; lia).
  split_ifs; tauto.
Qed.


Ltac eval_info :=
  repeat match goal with
  | |- context [N.to_nat (N.land ?k 7)] =>
      let v := eval vm_compute in (N.to_nat (N.land k 7)) in
      change (N.to_nat (N.land k 7)) with v
  | |- context [utf8.acceptRanges (N.shiftr ?k 4)] =>
      let v := eval vm_compute in (utf8.acceptRanges (N.shiftr k 4)) in
      change (utf8.acceptRanges (N.shiftr k 4)) with v
  | |- context [(240 <=? ?k)%N] =>
      let v := eval vm_compute in (240 <=? k)%N in
      change (240 <=? k)%N with v
  | |- context [(?k =? 240)%N] =>
      let v := eval vm_compute in (k =? 240)%N in
      change (k =? 240)%N with v
  end.


Ltac bool_hyps :=
  repeat match goal with
  | H : _ || _ = false |- _ => apply orb_false_iff in H as [? ?]
  | H : negb _ = false |- _ => apply negb_false_iff in H
  | H : negb _ = true |- _ => apply negb_true_iff in H
  | H : _ && _ = true |- _ => apply andb_true_iff in H as [? ?]
  | H : (_ <? _)%N = false |- _ => apply N.ltb_ge in H
  | H : (_ <? _)%N = true |- _ => apply N.ltb_lt in H
  | H : (_ <=? _)%N = true |- _ => apply N.leb_le in H
  | H : (_ <=? _)%N = false |- _ => apply N.leb_gt in H
  end.

Lemma decode_width (x : ascii) (rest : string) (r : N) (size : nat) :
  (128 <= byte x)%N ->
  utf8.DecodeRuneInString (take_str 4 (String x rest)) = (r, size) ->
  all_bytes high (take_str (size - 1) rest) = true
  /\ size - 1 <= String.length rest.
Proof.
  intros Hx. 
  destruct rest as [|y1 [|y2 [|y3 rest]]];
    cbn [take_str utf8.DecodeRuneInString];
    destruct (first_cases _ Hx) as [E|[E|[E|[E|[E|[E|[E|E]]]]]]]; rewrite E;
    eval_info; cbv beta iota zeta; unfold utf8.cont;
    cbn [String.length Nat.ltb Nat.leb orb andb negb];
    split_ifs; intros H; inversion H; subst; 
    cbn [Nat.sub take_str all_bytes list_ascii_of_string forallb String.length];
    unfold high; bool_hyps;
    (split; [repeat (apply andb_true_iff; split); try reflexivity; apply N.leb_le; lia | lia]).
Qed.











Lemma ToJSON_value (es : string) (w : World) :
  template.ToJSON es w = (String dquote (jsonBody es +:+ String dquote ""), w).
Proof. reflexivity. Qed.


(** * Further properties of the program *)

(** ** Split and Join *)

Lemma length_take_str (n : nat) (s : string) : String.length (take_str n s) <= n.
Proof.
  revert s; induction n as [|n IH]; intros [|c s]; simpl; try lia.
  specialize (IH s). lia.
Qed.

(** The first instance of [sep] cuts [s] in two around it. *)
Lemma Index_Some_cut (s sep : string) (m : nat) :
  strings.Index s sep = Some m ->
  s = take_str m s +:+ sep +:+ drop_str (m + String.length sep) s.
Proof.
  revert m; induction s as [|c s IH]; intros m H; cbn [strings.Index] in H.
  - destruct (strings.HasPrefix "" sep) eqn:P; [|discriminate].
    inversion H; subst. apply HasPrefix_inv in P as [t E].
    destruct sep; [reflexivity | discriminate].
  - destruct (strings.HasPrefix (String c s) sep) eqn:P.
    + inversion H; subst. apply HasPrefix_inv in P as [t E].
      cbn [take_str Nat.add String.append]. rewrite E at 2.
      now rewrite drop_str_app.
    + destruct (strings.Index s sep) as [i|] eqn:I; [|discriminate].
      inversion H; subst. cbn [take_str Nat.add drop_str String.append].
      now rewrite <- (IH i eq_refl).
Qed.

(** No instance of [sep] begins before the one that [Index] finds. *)
Lemma Index_Some_first (s sep : string) (m : nat) :
  strings.Index s sep = Some m ->
  forall a b, s = a +:+ sep +:+ b -> m <= String.length a.
Proof.
  revert m; induction s as [|c s IH]; intros m H a b E; cbn [strings.Index] in H.
  - destruct (strings.HasPrefix "" sep); [|discriminate]. inversion H. lia.
  - destruct (strings.HasPrefix (String c s) sep) eqn:P.
    + inversion H. lia.
    + destruct (strings.Index s sep) as [i|] eqn:I; [|discriminate].
      inversion H; subst. destruct a as [|x a].
      * cbn [String.append] in E. rewrite E in P.
        unfold strings.HasPrefix in P. now rewrite prefix_app in P.
      * cbn [String.append] in E. inversion E; subst.
        specialize (IH i eq_refl a b eq_refl). simpl. lia.
Qed.

Lemma Index_take_None (s sep : string) (m : nat) :
  sep <> "" -> strings.Index s sep = Some m ->
  strings.Index (take_str m s) sep = None.
Proof.
  intros Hsep H. apply Index_None_iff. intros a b E.
  pose proof (Index_Some_cut s sep m H) as Hs.
  rewrite E in Hs. rewrite !str_app_assoc in Hs.
  pose proof (Index_Some_first s sep m H a _ Hs) as Hle.
  pose proof (length_take_str m s) as Hlen.
  rewrite E, !str_length_app in Hlen.
  destruct sep; [now destruct Hsep | simpl in Hlen; lia].
Qed.

Lemma splitLoop_cons (k : nat) (s sep : string) (v : nat) :
  exists x l, strings.splitLoop k s sep v = x :: l.
Proof.
  destruct k as [|k]; simpl; [now eauto|].
  destruct (strings.Index s sep); now eauto.
Qed.

Lemma Join_cons (e : string) (l : list string) (sep : string) :
  l <> [] -> strings.Join (e :: l) sep = e +:+ sep +:+ strings.Join l sep.
Proof. destruct l; [congruence | reflexivity]. Qed.

Lemma Join_splitLoop (k : nat) (s sep : string) :
  strings.Join (strings.splitLoop k s sep 0) sep = s.
Proof.
  revert s; induction k as [|k IH]; intros s; [reflexivity|].
  cbn [strings.splitLoop].
  destruct (strings.Index s sep) as [m|] eqn:I; [|reflexivity].
  destruct (splitLoop_cons k (drop_str (m + String.length sep) s) sep 0) as (x & l & E).
  rewrite Join_cons by (rewrite E; discriminate).
  rewrite IH, Nat.add_0_r. symmetry. now apply Index_Some_cut.
Qed.

Lemma explodeLoop_cons (k : nat) (s : string) :
  exists x l, strings.explodeLoop k s = x :: l.
Proof.
  destruct k as [|k]; simpl; [now eauto|].
  destruct (utf8.DecodeRuneInString s); now eauto.
Qed.

Lemma Join_explodeLoop (k : nat) (s : string) :
  strings.Join (strings.explodeLoop k s) "" = s.
Proof.
  revert s; induction k as [|k IH]; intros s; [reflexivity|].
  cbn [strings.explodeLoop].
  destruct (utf8.DecodeRuneInString s) as [r size].
  destruct (explodeLoop_cons k (drop_str size s)) as (x & l & E).
  rewrite Join_cons by (rewrite E; discriminate).
  rewrite IH. cbn [String.append]. apply take_drop_str.
Qed.

Lemma runes_nil (s : string) : utf8.runes s = [] -> s = "".
Proof.
  destruct s as [|c s]; [reflexivity|]. unfold utf8.runes. cbn [utf8.runes_from].
  now destruct (utf8.DecodeRuneInString (String c s)).
Qed.

Lemma Join_explode (s : string) : strings.Join (strings.explode s (-1)) "" = s.
Proof.
  unfold strings.explode. cbn [Z.ltb Z.compare orb].
  destruct (0 <? Z.of_nat (utf8.RuneCountInString s))%Z eqn:E.
  - apply Join_explodeLoop.
  - apply Z.ltb_ge in E. unfold utf8.RuneCountInString in E.
    destruct (utf8.runes s) eqn:R; [|simpl in E; lia].
    now rewrite (runes_nil s R).
Qed.

(** The loop that fills the slice of extended strings copies the pieces. *)
Lemma convertSlice_loop (l init : list string) (k : nat) :
  k + length l <= length init ->
  foldl (λ rv '(i, sts), <[i := sts]> rv) init (imap (λ i x, (k + i, x)) l)
  = take k init ++ l ++ drop (k + length l) init.
Proof.
  revert init k; induction l as [|x l IH]; intros init k Hlen.
  - simpl. now rewrite Nat.add_0_r, take_drop.
  - cbn [imap foldl]. simpl in Hlen.
    rewrite (imap_ext _ (λ i y, (S k + i, y))) by (intros; simpl; f_equal; lia).
    rewrite IH by (rewrite length_insert; lia).
    rewrite Nat.add_0_r, drop_insert_lt by lia.
    rewrite (take_S_r _ _ x) by (apply list_lookup_insert_eq; lia).
    rewrite take_insert_ge by lia.
    rewrite <- app_assoc. simpl. do 4 f_equal. lia.
Qed.

Lemma convertSlice_id (l : list string) : template.convertSlice l = l.
Proof.
  unfold template.convertSlice.
  rewrite (imap_ext _ (λ i x, (0 + i, x))) by reflexivity.
  rewrite convertSlice_loop by (rewrite length_replicate; lia).
  rewrite drop_ge by (rewrite length_replicate; simpl; lia).
  simpl. apply app_nil_r.
Qed.

(** X1. Joining the pieces of [Split] with the separator gives the text
    back, for every text and every separator, the empty one included. *)
Theorem Split_Join (s sep : string) :
  strings.Join (template.Split s sep) sep = s.
Proof.
  unfold template.Split. rewrite convertSlice_id.
  unfold strings.Split, strings.genSplit. cbn [Z.eqb].
  destruct (String.eqb_spec sep "") as [->|Hsep].
  - apply Join_explode.
  - apply Join_splitLoop.
Qed.

Lemma length_drop_str (n : nat) (s : string) :
  String.length (drop_str n s) = String.length s - n.
Proof.
  revert s; induction n as [|n IH]; intros [|c s]; simpl; try lia. apply IH.
Qed.

Lemma Index_Some_length (s sep : string) (m : nat) :
  strings.Index s sep = Some m -> m + String.length sep <= String.length s.
Proof.
  intros H. pose proof (Index_Some_cut s sep m H) as E.
  pose proof (Index_Some_first s sep m H _ _ E) as Hm.
  assert (L : String.length s
              = String.length (take_str m s) + (String.length sep
                + String.length (drop_str (m + String.length sep) s))).
  { rewrite E at 1. now rewrite !str_length_app. }
  pose proof (length_take_str m s). lia.
Qed.

(** With enough fuel [Count] counts the cuts that [genSplit] makes, and
    what is left after the last one holds no instance of the separator. *)
Lemma splitLoop_Count (fuel : nat) (s sep : string) :
  sep <> "" -> String.length s <= fuel ->
  Forall (λ piece, strings.Index piece sep = None)
         (strings.splitLoop (strings.countLoop fuel s sep) s sep 0)
  /\ length (strings.splitLoop (strings.countLoop fuel s sep) s sep 0)
     = strings.countLoop fuel s sep + 1
  /\ strings.countLoop fuel s sep <= fuel.
Proof.
  intros Hsep. revert s; induction fuel as [|fuel IH]; intros s Hlen.
  - destruct s; [|simpl in Hlen; lia]. cbn.
    split; [|split; [reflexivity | lia]].
    constructor; [|constructor]. destruct sep; [now destruct Hsep | reflexivity].
  - cbn [strings.countLoop].
    destruct (strings.Index s sep) as [m|] eqn:I.
    + cbn [strings.splitLoop]. rewrite I.
      pose proof (Index_Some_length s sep m I) as Hm.
      assert (Hs : 0 < String.length sep) by (destruct sep; [now destruct Hsep | simpl; lia]).
      destruct (IH (drop_str (m + String.length sep) s)) as (Hf & Hl & Hc).
      { rewrite length_drop_str. lia. }
      split; [|split; [simpl; lia | lia]].
      constructor; [|exact Hf].
      rewrite Nat.add_0_r. now apply Index_take_None.
    + cbn. split; [|split; [reflexivity | lia]].
      constructor; [exact I | constructor].
Qed.

(** X2. For a separator that is not empty, no piece of [Split] holds the
    separator, and the pieces are one more than the instances that
    [strings.Count] counts. *)
Theorem Split_pieces_hold_no_separator (s sep : string) :
  sep <> "" ->
  Forall (λ piece, strings.Index piece sep = None) (template.Split s sep)
  /\ length (template.Split s sep) = strings.Count s sep + 1.
Proof.
  intros Hsep. unfold template.Split. rewrite convertSlice_id.
  unfold strings.Split, strings.genSplit, strings.Count. cbn [Z.eqb Z.ltb Z.compare].
  pose proof Hsep as Hne. apply String.eqb_neq in Hne. rewrite Hne.
  destruct (splitLoop_Count (String.length s) s sep Hsep (le_n _)) as (Hf & Hl & Hc).
  replace (Z.of_nat (String.length s) + 1
           <? Z.of_nat (strings.countLoop (String.length s) s sep) + 1)%Z
    with false by (symmetry; apply Z.ltb_ge; lia).
  replace (Z.to_nat (Z.of_nat (strings.countLoop (String.length s) s sep) + 1 - 1))
    with (strings.countLoop (String.length s) s sep) by lia.
  now split.
Qed.

Lemma Split_pieces_hold_no_separator_witness :
  Forall (λ piece, strings.Index piece ";" = None)
         (template.Split "secret/this/is/a/path;whatever;secret/some/path.json" ";")
  /\ length (template.Split "secret/this/is/a/path;whatever;secret/some/path.json" ";")
     = strings.Count "secret/this/is/a/path;whatever;secret/some/path.json" ";" + 1.
Proof.
  apply (Split_pieces_hold_no_separator
           "secret/this/is/a/path;whatever;secret/some/path.json" ";").
  discriminate.
Defined.

(** ** Split with the empty separator *)

Lemma first_ascii (b : N) : (b < 128)%N -> utf8.first b = 240%N.
Proof.
  intros H. unfold utf8.first.
  now replace (b <? 128)%N with true by (symmetry; apply N.ltb_lt; lia).
Qed.

Ltac use_hyps :=
  repeat match goal with
  | H : ?c = true |- context [?c] => rewrite H
  | H : ?c = false |- context [?c] => rewrite H
  end.

Lemma decode_take (x : ascii) (rest : string) (r : N) (w : nat) :
  utf8.DecodeRuneInString (String x rest) = (r, w) ->
  utf8.DecodeRuneInString (take_str w (String x rest)) = (r, w)
  /\ 1 <= w <= String.length (String x rest).
Proof.
  destruct (N.lt_ge_cases (byte x) 128) as [Hx|Hx].
  - cbn [utf8.DecodeRuneInString]. rewrite (first_ascii _ Hx). cbn.
    intros H; inversion H; subst. cbn [take_str utf8.DecodeRuneInString].
    rewrite (first_ascii _ Hx). cbn. split; [reflexivity | lia].
  - destruct rest as [|y1 [|y2 [|y3 rest]]];
      cbn [utf8.DecodeRuneInString];
      destruct (first_cases _ Hx) as [E|[E|[E|[E|[E|[E|[E|E]]]]]]]; rewrite E;
      eval_info; cbv beta iota zeta;
      cbn [String.length Nat.ltb Nat.leb orb andb negb];
      split_ifs; intros H; inversion H; subst;
      cbn [take_str utf8.DecodeRuneInString]; rewrite ?E; eval_info; cbv beta iota zeta;
      cbn [String.length Nat.ltb Nat.leb orb andb negb]; use_hyps;
      (split; [reflexivity | cbn [String.length]; lia]).
Qed.

Lemma runes_from_skip (k : nat) (s : string) :
  utf8.runes_from k s = utf8.runes_from 0 (drop_str k s).
Proof.
  revert k; induction s as [|c s IH]; intros [|k]; try reflexivity.
  simpl. apply IH.
Qed.

(** The runes of a text: its first rune, and the runes of what follows the
    bytes of that rune. *)
Lemma runes_cons (x : ascii) (rest : string) (r : N) (w : nat) :
  utf8.DecodeRuneInString (String x rest) = (r, w) ->
  utf8.runes (String x rest) = (r, w) :: utf8.runes (drop_str w (String x rest)).
Proof.
  intros H. unfold utf8.runes. cbn [utf8.runes_from]. rewrite H.
  destruct (decode_take x rest r w H) as [_ [Hw _]].
  destruct w as [|w]; [lia|]. cbn [drop_str Nat.sub].
  now rewrite Nat.sub_0_r, runes_from_skip.
Qed.

Lemma drop_take_str (w : nat) (s : string) : drop_str w (take_str w s) = "".
Proof. revert s; induction w as [|w IH]; intros [|c s]; simpl; auto. Qed.

Lemma RuneCount_take (x : ascii) (rest : string) (r : N) (w : nat) :
  utf8.DecodeRuneInString (String x rest) = (r, w) ->
  utf8.RuneCountInString (take_str w (String x rest)) = 1.
Proof.
  intros H. destruct (decode_take x rest r w H) as [Ht [Hw _]].
  destruct w as [|w]; [lia|]. cbn [take_str] in *.
  unfold utf8.RuneCountInString. rewrite (runes_cons _ _ _ _ Ht).
  change (String x (take_str w rest)) with (take_str (S w) (String x rest)).
  now rewrite drop_take_str.
Qed.

Lemma explodeLoop_runes (k : nat) (s : string) :
  utf8.RuneCountInString s = S k ->
  length (strings.explodeLoop k s) = S k
  /\ Forall (λ piece, utf8.RuneCountInString piece = 1) (strings.explodeLoop k s).
Proof.
  revert s; induction k as [|k IH]; intros s Hs.
  - split; [reflexivity|]. now constructor.
  - destruct s as [|x rest]; [discriminate|].
    cbn [strings.explodeLoop].
    destruct (utf8.DecodeRuneInString (String x rest)) as [r w] eqn:D.
    unfold utf8.RuneCountInString in Hs. rewrite (runes_cons _ _ _ _ D) in Hs.
    simpl in Hs. injection Hs as Hs.
    destruct (IH _ Hs) as [Hl Hf]. split; [simpl; now rewrite Hl|].
    constructor; [|exact Hf]. exact (RuneCount_take _ _ _ _ D).
Qed.

(** X3. With the empty separator [Split] gives one piece for each rune of
    the text (an invalid byte counting as a rune), and every piece is one
    rune. *)
Theorem Split_empty_separator_runes (s : string) :
  length (template.Split s "") = utf8.RuneCountInString s
  /\ Forall (λ piece, utf8.RuneCountInString piece = 1) (template.Split s "").
Proof.
  unfold template.Split. rewrite convertSlice_id.
  unfold strings.Split, strings.genSplit, strings.explode.
  cbn [Z.eqb String.eqb Z.ltb Z.compare orb].
  destruct (utf8.RuneCountInString s) as [|k] eqn:E.
  - cbn. split; [reflexivity | constructor].
  - replace (0 <? Z.of_nat (S k))%Z with true by (symmetry; apply Z.ltb_lt; lia).
    replace (Z.to_nat (Z.of_nat (S k) - 1)) with k by lia.
    now apply explodeLoop_runes.
Qed.

(** ** More on the template context *)

(** Clearing the entries whose key was already mentioned does not change
    what the first mention of a key gives. *)
Lemma lookupenv_copyenv (k : string) (seen : gset string) (envs : list string) :
  k ∉ seen -> os.lookupenv k (os.copyenv seen envs) = os.lookupenv k envs.
Proof.
  revert seen; induction envs as [|s envs IH]; intros seen Hk; [reflexivity|].
  cbn [os.copyenv os.lookupenv].
  destruct (os.entry_cut s) as [[key v]|] eqn:E.
  - destruct (decide (key ∈ seen)) as [Hin|Hnin].
    + cbn [os.lookupenv]. rewrite entry_cut_empty.
      destruct (String.eqb_spec key k) as [->|_]; [now destruct Hk|].
      now apply IH.
    + cbn [os.lookupenv]. rewrite E.
      destruct (String.eqb_spec key k) as [->|Hne]; [reflexivity|].
      apply IH. intros H. apply elem_of_union in H as [H|H]; [|now destruct Hk].
      apply elem_of_singleton in H. congruence.
  - cbn [os.lookupenv]. rewrite E. now apply IH.
Qed.

Lemma lookupenv_Environ (k : string) (envs : list string) :
  os.lookupenv k (os.Environ envs) = os.lookupenv k envs.
Proof.
  unfold os.Environ. rewrite lookupenv_filter_nonempty.
  apply lookupenv_copyenv, not_elem_of_empty.
Qed.

Lemma lookupenv_None_keys (k : string) (l : list string) :
  os.lookupenv k l = None -> k ∉ keys l.
Proof.
  induction l as [|e l IH]; intros H Hin; [inversion Hin|].
  cbn [os.lookupenv] in H. rewrite keys_cons in Hin.
  destruct (os.entry_cut e) as [[k0 v0]|]; [|now apply IH].
  destruct (String.eqb_spec k0 k) as [->|Hne]; [discriminate|].
  apply elem_of_cons in Hin as [->|Hin]; [now destruct Hne | now apply IH].
Qed.

(** X4. In an environment block of assignments the context has an entry
    for a name exactly when the block mentions the name, and the entry is
    the late expansion of the value of the first mention: later mentions
    of the same name are ignored. *)
Theorem getEnvMap_first_mention (envs : list string) :
  wellFormed envs = true ->
  exists ctx,
    main.getEnvMap envs = Some ctx
    /\ forall k, ctx !! k = main.lateExpand envs <$> os.lookupenv k envs.
Proof.
  intros Hwf. destruct (getEnvMap_lookup envs Hwf) as (ctx & Hrun & Hin & Hout).
  exists ctx. split; [exact Hrun|]. intros k.
  rewrite <- lookupenv_Environ.
  destruct (os.lookupenv k (os.Environ envs)) as [v|] eqn:E.
  - simpl. apply Hin; [now apply lookupenv_Some | now apply lookupenv_Some_key in E].
  - simpl. now apply Hout, lookupenv_None_keys.
Qed.

Lemma getEnvMap_first_mention_witness :
  exists ctx,
    main.getEnvMap ["A=1"; "B=%A%"; "A=2"; ""] = Some ctx
    /\ forall k, ctx !! k
                 = main.lateExpand ["A=1"; "B=%A%"; "A=2"; ""]
                   <$> os.lookupenv k ["A=1"; "B=%A%"; "A=2"; ""].
Proof.
  apply (getEnvMap_first_mention ["A=1"; "B=%A%"; "A=2"; ""]). reflexivity.
Defined.

(** What [copyenv] keeps of the strings that are no assignments. *)
Lemma copyenv_not_assignment (e : string) (seen : gset string) (envs : list string) :
  e <> "" -> os.entry_cut e = None ->
  e ∈ os.copyenv seen envs <-> e ∈ envs.
Proof.
  intros Hne He. revert seen; induction envs as [|s envs IH]; intros seen; [reflexivity|].
  cbn [os.copyenv]. destruct (os.entry_cut s) as [[key v]|] eqn:E.
  - assert (Hs : e <> s) by congruence.
    destruct (decide (key ∈ seen)); rewrite !elem_of_cons, IH; intuition congruence.
  - rewrite !elem_of_cons, IH. reflexivity.
Qed.

Lemma forallb_false_elem {A : Type} (p : A -> bool) (l : list A) :
  forallb p l = false <-> exists x, x ∈ l /\ p x = false.
Proof.
  induction l as [|a l IH]; simpl.
  - split; [discriminate | intros (x & H & _); inversion H].
  - rewrite andb_false_iff, IH. split.
    + intros [H|(x & Hx & Hp)]; [exists a; split; [left | exact H]|].
      exists x. split; [now right | exact Hp].
    + intros (x & Hx & Hp). apply elem_of_cons in Hx as [->|Hx]; [now left|].
      right. now exists x.
Qed.

Lemma Environ_not_assignment (e : string) (envs : list string) :
  has_byte "=" e = false ->
  e ∈ os.Environ envs <-> e ∈ envs /\ e <> "".
Proof.
  intros Hb. unfold os.Environ. rewrite list_elem_of_filter. split.
  - intros [Hne Hin]. split; [|exact Hne].
    apply (copyenv_not_assignment e ∅ envs Hne); [now apply entry_cut_None | exact Hin].
  - intros [Hin Hne]. split; [exact Hne|].
    apply (copyenv_not_assignment e ∅ envs Hne); [now apply entry_cut_None | exact Hin].
Qed.

(** X5. [getEnvMap] stops with an index out of range exactly when the
    environment block holds a string that is not empty and has no equals
    sign; otherwise it returns a context. *)
Theorem getEnvMap_panics_iff (envs : list string) :
  main.getEnvMap envs = None
  <-> exists e, e ∈ envs /\ e <> "" /\ has_byte "=" e = false.
Proof.
  split.
  - intros H. destruct (wellFormed envs) eqn:Hwf.
    + destruct (getEnvMap_lookup envs Hwf) as (ctx & Hrun & _). congruence.
    + apply forallb_false_elem in Hwf as (e & Hin & Hb).
      apply (Environ_not_assignment e envs Hb) in Hin as [Hin Hne].
      now exists e.
  - intros (e & Hin & Hne & Hb). unfold main.getEnvMap. apply loop_stops.
    apply forallb_false_elem. exists e. split; [|exact Hb].
    now apply Environ_not_assignment.
Qed.

Lemma markerAt_not_percent (c : ascii) (s : string) :
  is_byte c "%" = false -> regexp.markerAt (String c s) = None.
Proof. intros H. cbn [regexp.markerAt]. now rewrite H. Qed.

Lemma replaceAllLoop_no_percent (repl a b : string) :
  has_byte "%" a = false ->
  regexp.replaceAllLoop repl 0 (a +:+ b) = a +:+ regexp.replaceAllLoop repl 0 b.
Proof.
  induction a as [|c a IH]; intros H; [reflexivity|].
  simpl in H. apply orb_false_iff in H as [Hc Ha].
  change (String c a +:+ b) with (String c (a +:+ b)).
  cbn [regexp.replaceAllLoop]. rewrite (markerAt_not_percent c _ Hc).
  cbn [String.append]. now rewrite (IH Ha).
Qed.

Lemma expandLoop_no_dollar_app (m : string -> string) (a b : string) :
  has_byte "$" a = false ->
  os.expandLoop m 0 (a +:+ b) = a +:+ os.expandLoop m 0 b.
Proof.
  induction a as [|c a IH]; intros H; [reflexivity|].
  simpl in H. apply orb_false_iff in H as [Hc Ha].
  change (String c a +:+ b) with (String c (a +:+ b)).
  rewrite (expandLoop_byte m c _ Hc). cbn [String.append]. now rewrite (IH Ha).
Qed.

Lemma no_percent_not_open (s : string) :
  has_byte "%" s = false -> endsInOpenMarker s = false.
Proof.
  induction s as [|c s IH]; [reflexivity|]. simpl. intros H.
  apply orb_false_iff in H as [Hc Hs]. now rewrite Hc, (IH Hs).
Qed.

Lemma no_percent_no_marker (s : string) :
  has_byte "%" s = false -> containsMarker s = false.
Proof.
  induction s as [|c s IH]; [reflexivity|]. intros H.
  simpl in H. apply orb_false_iff in H as [Hc Hs].
  cbn [containsMarker]. now rewrite (markerAt_not_percent c s Hc), (IH Hs).
Qed.

(** X6. A marker [%NAME%] and a reference [${NAME}] give the same text:
    after a text with no dollar and no percent sign both are replaced by
    the value of [NAME] in the environment (the empty text when it is not
    there), and what follows is expanded on its own. *)
Theorem marker_same_as_reference (envs : list string) (pre n post : string) :
  has_byte "$" pre = false ->
  has_byte "%" pre = false ->
  isMarkerName n = true ->
  main.lateExpand envs (pre +:+ "${" +:+ n +:+ "}" +:+ post)
  = main.lateExpand envs (pre +:+ marker n +:+ post)
  /\ main.lateExpand envs (pre +:+ marker n +:+ post)
     = pre +:+ os.Getenv envs n +:+ main.lateExpand envs post.
Proof.
  intros Hd Hp Hn.
  assert (Hpre : main.lateExpand envs pre = pre).
  { rewrite (lateExpand_plain envs pre (no_percent_no_marker pre Hp)).
    apply (Expand_no_dollar _ _ Hd). }
  assert (Hm : main.lateExpand envs (pre +:+ marker n +:+ post)
               = pre +:+ os.Getenv envs n +:+ main.lateExpand envs post).
  { rewrite (lateExpand_marker envs pre n post Hd (no_percent_not_open pre Hp) Hn).
    now rewrite Hpre. }
  split; [|exact Hm]. rewrite Hm.
  unfold main.lateExpand, os.ExpandEnv, os.Expand, regexp.ReplaceAll.
  assert (Hn' : has_byte "%" n = false).
  { apply isMarkerName_inv in Hn as [_ Hn].
    exact (all_bytes_has_byte _ _ _ name_byte_not_percent Hn). }
  replace (pre +:+ "${" +:+ n +:+ "}" +:+ post)
    with ((pre +:+ "${" +:+ n +:+ "}") +:+ post) by now rewrite !str_app_assoc.
  rewrite replaceAllLoop_no_percent.
  - rewrite !str_app_assoc, (expandLoop_no_dollar_app _ pre _ Hd).
    now rewrite (expandLoop_reference _ n _ Hn).
  - rewrite !has_byte_app, Hp, Hn'. reflexivity.
Qed.

Lemma marker_same_as_reference_witness :
  main.lateExpand ["HOST=db1"] ("jdbc://" +:+ "${" +:+ "HOST" +:+ "}" +:+ ":5432/%HOST%")
  = main.lateExpand ["HOST=db1"] ("jdbc://" +:+ marker "HOST" +:+ ":5432/%HOST%")
  /\ main.lateExpand ["HOST=db1"] ("jdbc://" +:+ marker "HOST" +:+ ":5432/%HOST%")
     = "jdbc://" +:+ os.Getenv ["HOST=db1"] "HOST"
       +:+ main.lateExpand ["HOST=db1"] ":5432/%HOST%".
Proof.
  apply (marker_same_as_reference ["HOST=db1"] "jdbc://" "HOST" ":5432/%HOST%");
    reflexivity.
Defined.

(** X7. References are not followed: when the value of [a] is the marker
    of [b], the entry of [a] is the raw value of [b] as the environment
    holds it, markers and dollar signs included, while the entry of [b] is
    the late expansion of that value. *)
Theorem reference_gives_raw_value (envs : list string) (a b vb : string) :
  wellFormed envs = true ->
  assignment a (marker b) ∈ os.Environ envs ->
  assignment b vb ∈ os.Environ envs ->
  has_byte "=" a = false ->
  isMarkerName b = true ->
  exists ctx,
    main.getEnvMap envs = Some ctx
    /\ ctx !! a = Some vb
    /\ ctx !! b = Some (main.lateExpand envs vb).
Proof.
  intros Hwf Ha Hb Hka Hnb.
  pose proof (marker_name_no_eq b Hnb) as Hkb.
  destruct (getEnvMap_lookup envs Hwf) as (ctx & Hrun & Hin & _).
  exists ctx. split; [exact Hrun|]. split; [|now apply Hin].
  rewrite (Hin _ _ Ha Hka).
  replace (marker b) with ("" +:+ marker b +:+ "")
    by (cbn [String.append]; apply str_app_nil_r).
  rewrite (lateExpand_marker envs "" b "" eq_refl eq_refl Hnb).
  rewrite (Getenv_present envs b vb Hb Hkb).
  - cbn. now rewrite str_app_nil_r.
  - now apply isMarkerName_inv in Hnb.
Qed.

Lemma reference_gives_raw_value_witness :
  exists ctx,
    main.getEnvMap ["URL=%HOST%"; "HOST=%NAME%.example.org:$PORT"; "NAME=db"; "PORT=5432"]
    = Some ctx
    /\ ctx !! "URL" = Some "%NAME%.example.org:$PORT"
    /\ ctx !! "HOST" = Some "db.example.org:5432".
Proof.
  apply (reference_gives_raw_value
           ["URL=%HOST%"; "HOST=%NAME%.example.org:$PORT"; "NAME=db"; "PORT=5432"]
           "URL" "HOST" "%NAME%.example.org:$PORT").
  - reflexivity.
  - by_compute.
  - by_compute.
  - reflexivity.
  - reflexivity.
Defined.

(** ** More on the context filter *)

Section Filter_more.

Variable Compile : string -> regexp.Regexp + regexp.Error.

Lemma Filter_compiled (t : gmap string string) (pattern : string)
    (exp : regexp.Regexp) (w : World) :
  Compile pattern = inl exp ->
  lib.Filter Compile t pattern w
  = (map_fold (λ k v (rv : gmap string string),
                 if regexp.MatchString exp k then <[k := v]> rv else rv) ∅ t, w).
Proof. intros Hc. unfold lib.Filter. now rewrite Hc. Qed.

(** X8. For a pattern that compiles, the result of [Filter] is a part of
    the context it is given, and filtering the result again with the same
    pattern gives the result itself. *)
Theorem Filter_subcontext_idempotent (t : gmap string string) (pattern : string)
    (exp : regexp.Regexp) (w : World) :
  Compile pattern = inl exp ->
  exists rv,
    lib.Filter Compile t pattern w = (rv, w)
    /\ rv ⊆ t
    /\ lib.Filter Compile rv pattern w = (rv, w).
Proof.
  intros Hc. rewrite (Filter_compiled t pattern exp w Hc).
  eexists. split; [reflexivity|]. split.
  - apply map_subseteq_spec. intros k v. rewrite Filter_loop_lookup.
    now destruct (regexp.MatchString exp k).
  - rewrite (Filter_compiled _ pattern exp w Hc). f_equal.
    apply map_eq. intros k. rewrite !Filter_loop_lookup.
    now destruct (regexp.MatchString exp k).
Qed.

(** X9. Two filters, one after the other, keep the entries whose key both
    patterns match, in whichever order they are applied. *)
Theorem Filter_twice (t : gmap string string) (p q : string)
    (ep eq : regexp.Regexp) (w : World) :
  Compile p = inl ep -> Compile q = inl eq ->
  exists rv,
    (rp ← lib.Filter Compile t p; lib.Filter Compile rp q) w = (rv, w)
    /\ (rq ← lib.Filter Compile t q; lib.Filter Compile rq p) w = (rv, w)
    /\ forall k, rv !! k = if regexp.MatchString ep k && regexp.MatchString eq k
                           then t !! k else None.
Proof.
  intros Hp Hq. unfold mbind, IO_bind.
  rewrite (Filter_compiled t p ep w Hp), (Filter_compiled t q eq w Hq).
  rewrite (Filter_compiled _ q eq w Hq), (Filter_compiled _ p ep w Hp).
  eexists. split; [reflexivity|]. split.
  - f_equal. apply map_eq. intros k. rewrite !Filter_loop_lookup.
    now destruct (regexp.MatchString ep k), (regexp.MatchString eq k).
  - intros k. rewrite !Filter_loop_lookup.
    now destruct (regexp.MatchString ep k), (regexp.MatchString eq k).
Qed.

End Filter_more.

Lemma Filter_subcontext_idempotent_witness :
  exists rv,
    lib.Filter syntax.Compile
      {[ "CONSUL_KV_1" := "config/a;a.json"; "CONSUL_KV_X" := "x"; "HOME" := "/root" ]}
      "^CONSUL_KV_\d+$" (mkWorld (λ _, ("", None)) [])
    = (rv, mkWorld (λ _, ("", None)) [])
    /\ rv ⊆ {[ "CONSUL_KV_1" := "config/a;a.json"; "CONSUL_KV_X" := "x"; "HOME" := "/root" ]}
    /\ lib.Filter syntax.Compile rv "^CONSUL_KV_\d+$" (mkWorld (λ _, ("", None)) [])
       = (rv, mkWorld (λ _, ("", None)) []).
Proof.
  apply (Filter_subcontext_idempotent syntax.Compile _ "^CONSUL_KV_\d+$"
           (match syntax.Compile "^CONSUL_KV_\d+$" with
            | inl exp => exp
            | inr _ => regexp.NoMatch
            end)).
  reflexivity.
Defined.

Lemma Filter_twice_witness :
  exists rv,
    (rp ← lib.Filter syntax.Compile
            {[ "FILE_1" := "a"; "FILE_OLD" := "b"; "OLD" := "c" ]} "^FILE_";
     lib.Filter syntax.Compile rp "OLD$") (mkWorld (λ _, ("", None)) [])
    = (rv, mkWorld (λ _, ("", None)) [])
    /\ (rq ← lib.Filter syntax.Compile
               {[ "FILE_1" := "a"; "FILE_OLD" := "b"; "OLD" := "c" ]} "OLD$";
        lib.Filter syntax.Compile rq "^FILE_") (mkWorld (λ _, ("", None)) [])
       = (rv, mkWorld (λ _, ("", None)) [])
    /\ forall k,
         rv !! k
         = if regexp.MatchString
                (match syntax.Compile "^FILE_" with inl e => e | inr _ => regexp.NoMatch end) k
              && regexp.MatchString
                   (match syntax.Compile "OLD$" with inl e => e | inr _ => regexp.NoMatch end) k
           then ({[ "FILE_1" := "a"; "FILE_OLD" := "b"; "OLD" := "c" ]} : gmap string string) !! k
           else None.
Proof.
  apply (Filter_twice syntax.Compile _ "^FILE_" "OLD$"); reflexivity.
Defined.

(** ** More on the JSON encoding and the files *)

Lemma jrun_app (st : JState) (a b : string) :
  jrun st (a +:+ b) = jrun st a ≫= λ st', jrun st' b.
Proof.
  revert st; induction a as [|c a IH]; intros st; [reflexivity|].
  cbn [String.append jrun]. destruct (jstep st c) as [st'|]; [apply IH | reflexivity].
Qed.

Lemma jrun_high (c : ascii) : high c = true -> jstep JNormal c = Some JNormal.
Proof. each_byte c. Qed.

Lemma jrun_htmlSafe (c : ascii) : json.htmlSafeSet c = true -> jstep JNormal c = Some JNormal.
Proof. each_byte c. Qed.

Lemma jrun_safe (c : ascii) : json.safeSet c = true -> jstep JNormal c = Some JNormal.
Proof. each_byte c. Qed.

Lemma jrun_escapeByte (c : ascii) : jrun JNormal (json.escapeByte c) = Some JNormal.
Proof. each_byte c. Qed.

(** What the loop of [appendString] writes is the body of a JSON string. *)
Lemma appendLoop_jrun (e : bool) (src : string) (skip : nat) (copy : bool) :
  all_bytes high (take_str skip src) = true ->
  jrun JNormal (json.appendLoop e skip copy src) = Some JNormal.
Proof.
  revert skip copy; induction src as [|c src IH]; intros skip copy Hs; [reflexivity|].
  cbn [json.appendLoop]. destruct skip as [|k].
  - destruct (byte c <? 128)%N eqn:Hc.
    + destruct (json.htmlSafeSet c || negb e && json.safeSet c) eqn:Hsafe.
      * cbn [jrun]. replace (jstep JNormal c) with (Some JNormal); [now apply IH|].
        apply orb_true_iff in Hsafe as [H|H]; [now rewrite jrun_htmlSafe|].
        apply andb_true_iff in H as [_ H]. now rewrite jrun_safe.
      * rewrite jrun_app, jrun_escapeByte. now apply IH.
    + apply N.ltb_ge in Hc.
      destruct (utf8.DecodeRuneInString (take_str 4 (String c src))) as [r size] eqn:D.
      apply (decode_width c src r size Hc) in D as [Hw _].
      destruct ((r =? utf8.RuneError)%N && (size =? 1)%nat).
      * rewrite jrun_app. cbn. now apply IH.
      * destruct ((r =? 8232)%N || (r =? 8233)%N) eqn:Hr.
        -- rewrite !jrun_app.
           apply orb_true_iff in Hr as [Hr|Hr]; apply N.eqb_eq in Hr; subst r;
             cbn; now apply IH.
        -- cbn [jrun]. rewrite jrun_high by (unfold high; now apply N.leb_le).
           now apply IH.
  - cbn [take_str all_bytes list_ascii_of_string forallb] in Hs.
    apply andb_true_iff in Hs as [Hc Hs]. destruct copy.
    + cbn [jrun]. rewrite (jrun_high c Hc). now apply IH.
    + now apply IH.
Qed.

(** X10. [ToJSON] returns a JSON string: a quote, a body and a quote, where
    no byte of the body is below 0x20 and every quote and backslash of the
    body belongs to an escape of the JSON grammar.  It writes no
    diagnostic, whatever the text is. *)
Theorem ToJSON_is_json_string (es : string) (w : World) :
  exists body,
    template.ToJSON es w = (String dquote (body +:+ String dquote ""), w)
    /\ jsonStringBody body = true.
Proof.
  exists (jsonBody es). split; [reflexivity|].
  unfold jsonStringBody, jsonBody.
  now rewrite (appendLoop_jrun true es 0 true eq_refl).
Qed.

Lemma htmlSafe_ascii (c : ascii) : json.htmlSafeSet c = true -> (byte c <? 128)%N = true.
Proof. each_byte c. Qed.

(** X11. A text of bytes that are safe in HTML (printable ASCII but the
    quote, the backslash, [&], [<] and [>]) is left as it is between the
    quotes. *)
Theorem ToJSON_plain_text (es : string) (w : World) :
  all_bytes json.htmlSafeSet es = true ->
  template.ToJSON es w = (String dquote (es +:+ String dquote ""), w).
Proof.
  intros H. rewrite ToJSON_value. do 3 f_equal. unfold jsonBody.
  induction es as [|c es IH]; [reflexivity|].
  cbn [all_bytes list_ascii_of_string forallb] in H.
  apply andb_true_iff in H as [Hc Hs].
  cbn [json.appendLoop]. rewrite (htmlSafe_ascii c Hc), Hc. cbn [orb].
  now rewrite (IH Hs).
Qed.

Lemma ToJSON_plain_text_witness :
  template.ToJSON "secret/this/is/a/path" (mkWorld (λ _, ("", None)) [])
  = (String dquote ("secret/this/is/a/path" +:+ String dquote ""),
     mkWorld (λ _, ("", None)) []).
Proof.
  apply (ToJSON_plain_text "secret/this/is/a/path"). reflexivity.
Defined.

Lemma LoadFile_outcome (es : string) (w : World) :
  template.LoadFile es w
  = match files w es with
    | (data, Some _) =>
        ("", {| files := files w;
                stderr := stderr w ++ ["Error reading file " +:+ es +:+ ": "
                                       +:+ fmt.bytes_v data] |})
    | (data, None) => (data, w)
    end.
Proof.
  unfold template.LoadFile, osfile.ReadFile.
  unfold mbind, IO_bind, fmt.Fprintf_Stderr, mret, IO_ret.
  destruct (files w es) as [data [err|]]; [|reflexivity].
  now rewrite Sprintf_read_error.
Qed.


(** X13. A file loaded and encoded, as the templates do with
    [.FILE.LoadFile.ToJSON], always gives a JSON string, whether the file
    can be read or not and whatever it holds; the file table is not
    changed, and a file that cannot be read gives the empty JSON string
    and one diagnostic. *)
Theorem LoadFile_ToJSON (es : string) (w : World) :
  exists body w',
    (fileData ← template.LoadFile es; template.ToJSON fileData) w
    = (String dquote (body +:+ String dquote ""), w')
    /\ jsonStringBody body = true
    /\ files w' = files w
    /\ (forall data err, files w es = (data, Some err) ->
          body = "" /\ length (stderr w') = S (length (stderr w))).
Proof.
  unfold mbind, IO_bind. rewrite LoadFile_outcome.
  destruct (files w es) as [data [err|]] eqn:E; rewrite ToJSON_value.
  - eexists. eexists. split; [reflexivity|]. split; [reflexivity|].
    split; [reflexivity|]. intros d e' _. split; [reflexivity|].
    cbn [stderr]. rewrite length_app. simpl. lia.
  - eexists. eexists. split; [reflexivity|]. split.
    + unfold jsonStringBody, jsonBody.
      now rewrite (appendLoop_jrun true data 0 true eq_refl).
    + split; [reflexivity|]. intros d e' H. discriminate H.
Qed.

(** ** Split of a joined list *)

Lemma splitLoop_joined (c : ascii) (l : list string) (k fuel : nat) :
  l <> [] -> Forall (λ e, has_byte c e = false) l ->
  String.length (strings.Join l (String c "")) <= fuel ->
  strings.countLoop fuel (strings.Join l (String c "")) (String c "") = length l - 1
  /\ (length l - 1 <= k ->
      strings.splitLoop k (strings.Join l (String c "")) (String c "") 0 = l).
Proof.
  revert k fuel; induction l as [|e l IH]; intros k fuel Hne Hl Hfuel; [congruence|].
  apply Forall_cons in Hl as [He Hl]. destruct l as [|e' l].
  - change (strings.Join [e] (String c "")) with e in *.
    apply Index_byte_None in He. split.
    + destruct fuel; cbn [strings.countLoop]; [reflexivity | now rewrite He].
    + intros _. destruct k; cbn [strings.splitLoop]; [reflexivity | now rewrite He].
  - rewrite Join_cons in * by discriminate.
    change (String c "" +:+ strings.Join (e' :: l) (String c ""))
      with (String c (strings.Join (e' :: l) (String c ""))) in *.
    pose proof (Index_byte_app c e (strings.Join (e' :: l) (String c "")) He) as I.
    rewrite str_length_app in Hfuel. cbn [String.length] in Hfuel.
    destruct fuel as [|fuel]; [lia|].
    destruct (IH (k - 1) fuel ltac:(discriminate) Hl ltac:(lia)) as [Hc Hs].
    cbn [strings.countLoop]. rewrite I. cbn [String.length].
    rewrite Nat.add_1_r, drop_str_app_byte. split.
    + rewrite Hc. cbn [length]. lia.
    + intros Hk. cbn [length] in Hk. destruct k as [|k]; [lia|].
      cbn [strings.splitLoop]. rewrite I. cbn [String.length].
      rewrite Nat.add_0_r, take_str_app_byte, Nat.add_1_r, drop_str_app_byte.
      f_equal. replace (S k - 1) with k in Hs by lia. apply Hs. cbn [length]. lia.
Qed.

(** X14. [Split] undoes [Join] for a separator of one byte: a list that
    is not empty, of texts that do not hold the byte, is the result of
    [Split] on its [Join]. *)
Theorem Split_of_joined (c : ascii) (l : list string) :
  l <> [] -> Forall (λ e, has_byte c e = false) l ->
  template.Split (strings.Join l (String c "")) (String c "") = l.
Proof.
  intros Hne Hl. unfold template.Split. rewrite convertSlice_id.
  unfold strings.Split, strings.genSplit, strings.Count. cbn [Z.eqb Z.ltb Z.compare].
  change (String c "" =? "")%string with false. cbn iota.
  set (s := strings.Join l (String c "")).
  destruct (splitLoop_joined c l (length l - 1) (String.length s) Hne Hl (le_n _)) as [Hc Hs].
  fold s in Hc, Hs. rewrite Hc.
  assert (length l - 1 <= String.length s) as Hb.
  { rewrite <- Hc. 
    destruct (splitLoop_Count (String.length s) s (String c "") ltac:(discriminate) (le_n _))
      as (_ & _ & H). exact H. }
  replace (Z.of_nat (String.length s) + 1 <? Z.of_nat (length l - 1) + 1)%Z
    with false by (symmetry; apply Z.ltb_ge; lia).
  replace (Z.to_nat (Z.of_nat (length l - 1) + 1 - 1)) with (length l - 1) by lia.
  now apply Hs.
Qed.

Lemma Split_of_joined_witness :
  template.Split "o,out" "," = ["o"; "out"].
Proof. apply (Split_of_joined "," ["o"; "out"]); [discriminate | repeat constructor]. Defined.

(** ** The base64 encoding *)

Example ToBase64_cases :
  template.ToBase64 "" = ""
  /\ template.ToBase64 "hello" = "aGVsbG8="
  /\ template.ToBase64 "hell" = "aGVsbA=="
  /\ template.ToBase64 "Man" = "TWFu"
  /\ base64Decode "aGVsbG8=" = Some "hello"
  /\ base64Decode "aGVsbA=" = None.
Proof. repeat split. Qed.

Lemma string_triples_ind (P : string -> Prop) :
  P "" -> (forall a, P (String a "")) -> (forall a b, P (String a (String b ""))) ->
  (forall a b c s, P s -> P (String a (String b (String c s)))) ->
  forall s, P s.
Proof.
  intros H0 H1 H2 H3 s.
  enough (P s /\ (forall a, P (String a s)) /\ (forall a b, P (String a (String b s)))) by tauto.
  induction s as [|c s (IH0 & IH1 & IH2)]; [now auto|].
  split; [apply IH1|]. split; [intros a; apply IH2|]. intros a b. now apply H3.
Qed.

Lemma EncodedLen_3 (n : nat) : base64.EncodedLen (S (S (S n))) = 4 + base64.EncodedLen n.
Proof.
  unfold base64.EncodedLen.
  replace (S (S (S n)) + 2) with (n + 2 + 1 * 3) by lia.
  rewrite Nat.div_add by lia. lia.
Qed.

Lemma Encode_groups (src : string) (done : list ascii) :
  base64.Encode (done ++ replicate (base64.EncodedLen (String.length src)) "000"%char)
                (length done) src
  = done ++ groups src.
Proof.
  revert done; induction src as [|a|a b|a b c src IH] using string_triples_ind; intros done.
  - simpl. now rewrite app_nil_r.
  - cbn [base64.Encode groups String.length].
    change (base64.EncodedLen 1) with 4.
    rewrite !insert_app_r_alt by (rewrite ?length_insert; lia).
    replace (length done + 0 - length done) with 0 by lia.
    replace (length done + 1 - length done) with 1 by lia.
    replace (length done + 2 - length done) with 2 by lia.
    replace (length done + 3 - length done) with 3 by lia.
    cbn. now rewrite !N.lor_0_r.
  - cbn [base64.Encode groups String.length].
    change (base64.EncodedLen 2) with 4.
    rewrite !insert_app_r_alt by (rewrite ?length_insert; lia).
    replace (length done + 0 - length done) with 0 by lia.
    replace (length done + 1 - length done) with 1 by lia.
    replace (length done + 2 - length done) with 2 by lia.
    replace (length done + 3 - length done) with 3 by lia.
    cbn. now rewrite N.lor_0_r.
  - cbn [base64.Encode groups String.length].
    rewrite EncodedLen_3.
    rewrite !insert_app_r_alt by (rewrite ?length_insert; lia).
    replace (length done + 0 - length done) with 0 by lia.
    replace (length done + 1 - length done) with 1 by lia.
    replace (length done + 2 - length done) with 2 by lia.
    replace (length done + 3 - length done) with 3 by lia.
    cbn [replicate Nat.add insert list_insert].
    specialize (IH (done ++ sextets (byte a) (byte b) (byte c))).
    rewrite length_app in IH. change (length (sextets _ _ _)) with 4 in IH.
    rewrite <- !app_assoc in IH. exact IH.
Qed.

Lemma EncodeToString_groups (src : string) :
  base64.EncodeToString src = string_of_list_ascii (groups src).
Proof.
  unfold base64.EncodeToString. f_equal. apply (Encode_groups src []).
Qed.


Lemma lor_add (a b k : N) : (a mod 2 ^ k = 0 -> b < 2 ^ k -> N.lor a b = a + b)%N.
Proof.
  intros Ha Hb.
  rewrite <- N.lxor_lor, N.add_nocarry_lxor; trivial.
  all: apply N.bits_inj_0; intros n; rewrite N.land_spec.
  all: destruct (N.lt_ge_cases n k) as [Hn|Hn].
  all: try (rewrite <- (N.mod_pow2_bits_low a k n Hn), Ha, N.bits_0; reflexivity).
  all: destruct (N.eq_dec b 0%N) as [->|Hb0]; [now rewrite N.bits_0, andb_false_r|].
  all: rewrite (N.bits_above_log2 b n), andb_false_r; trivial.
  all: apply N.log2_lt_pow2 in Hb; lia.
Qed.

Lemma sextets_sum (v : N) :
  (v < 16777216 ->
   (v / 262144) mod 64 * 262144 + (v / 4096) mod 64 * 4096 + (v / 64) mod 64 * 64 + v mod 64
   = v)%N.
Proof.
  intros Hv.
  replace (v / 262144)%N with (v / 64 / 64 / 64)%N by (now rewrite !N.Div0.div_div).
  replace (v / 4096)%N with (v / 64 / 64)%N by (now rewrite !N.Div0.div_div).
  pose proof (N.Div0.div_mod v 64) as H0.
  pose proof (N.Div0.div_mod (v / 64) 64) as H1.
  pose proof (N.Div0.div_mod (v / 64 / 64) 64) as H2.
  assert (v / 64 / 64 / 64 < 64)%N as H4.
  { rewrite !N.Div0.div_div. apply N.Div0.div_lt_upper_bound. lia. }
  rewrite (N.mod_small _ _ H4).
  pose proof (N.mod_lt v 64). pose proof (N.mod_lt (v / 64) 64).
  pose proof (N.mod_lt (v / 64 / 64) 64).
  lia.
Qed.

Lemma bytes_of_sum (a b c : N) :
  (a < 256 -> b < 256 -> c < 256 ->
   let v := a * 65536 + b * 256 + c in
   (v / 65536) mod 256 = a /\ (v / 256) mod 256 = b /\ v mod 256 = c)%N.
Proof.
  intros Ha Hb Hc v. subst v. repeat split.
  - rewrite <- N.add_assoc, N.div_add_l by lia. rewrite (N.div_small (b * 256 + c)) by lia.
    rewrite N.add_0_r. now apply N.mod_small.
  - replace (a * 65536 + b * 256 + c)%N with ((a * 256 + b) * 256 + c)%N by lia.
    rewrite N.div_add_l by lia. rewrite (N.div_small c) by lia. rewrite N.add_0_r.
    rewrite N.add_comm, N.Div0.mod_add. now apply N.mod_small.
  - replace (a * 65536 + b * 256 + c)%N with (c + (a * 256 + b) * 256)%N by lia.
    rewrite N.Div0.mod_add. now apply N.mod_small.
Qed.

Lemma land_63 (v : N) : N.land v 63 = (v mod 64)%N.
Proof. change 63%N with (N.ones 6). now rewrite N.land_ones. Qed.

Lemma land_255 (v : N) : N.land v 255 = (v mod 256)%N.
Proof. change 255%N with (N.ones 8). now rewrite N.land_ones. Qed.

Lemma val_sum (a b c : N) :
  (b < 256 -> c < 256 ->
   N.lor (N.lor (N.shiftl a 16) (N.shiftl b 8)) c = a * 65536 + b * 256 + c)%N.
Proof.
  intros Hb Hc. rewrite !N.shiftl_mul_pow2.
  change (2 ^ 16)%N with 65536%N. change (2 ^ 8)%N with 256%N.
  rewrite (lor_add (a * 65536) (b * 256) 16).
  - apply (lor_add _ c 8); [|exact Hc].
    replace (a * 65536 + b * 256)%N with ((a * 256 + b) * 2 ^ 8)%N by lia.
    apply N.Div0.mod_mul.
  - replace (a * 65536)%N with (a * 2 ^ 16)%N by lia. apply N.Div0.mod_mul.
  - change (2 ^ 16)%N with 65536%N. lia.
Qed.

Lemma quantum_sum (i0 i1 i2 i3 : N) :
  (i1 < 64 -> i2 < 64 -> i3 < 64 ->
   quantum i0 i1 i2 i3 = i0 * 262144 + i1 * 4096 + i2 * 64 + i3)%N.
Proof.
  intros H1 H2 H3. unfold quantum. rewrite !N.shiftl_mul_pow2.
  change (2 ^ 18)%N with 262144%N. change (2 ^ 12)%N with 4096%N.
  change (2 ^ 6)%N with 64%N.
  rewrite (lor_add (i0 * 262144) (i1 * 4096) 18).
  - rewrite (lor_add (i0 * 262144 + i1 * 4096) (i2 * 64) 12).
    + apply (lor_add _ i3 6); [|exact H3].
      replace (i0 * 262144 + i1 * 4096 + i2 * 64)%N
        with ((i0 * 4096 + i1 * 64 + i2) * 2 ^ 6)%N by lia.
      apply N.Div0.mod_mul.
    + replace (i0 * 262144 + i1 * 4096)%N with ((i0 * 64 + i1) * 2 ^ 12)%N by lia.
      apply N.Div0.mod_mul.
    + change (2 ^ 12)%N with 4096%N. lia.
  - replace (i0 * 262144)%N with (i0 * 2 ^ 18)%N by lia. apply N.Div0.mod_mul.
  - change (2 ^ 18)%N with 262144%N. lia.
Qed.

Lemma byte_lt (c : ascii) : (byte c < 256)%N.
Proof. apply N_ascii_bounded. Qed.

(** The four sextets of three bytes hold the three bytes. *)
Lemma quantum_sextets (a b c : N) :
  (a < 256 -> b < 256 -> c < 256 ->
   let val := N.lor (N.lor (N.shiftl a 16) (N.shiftl b 8)) c in
   let q := quantum (N.land (N.shiftr val 18) 63) (N.land (N.shiftr val 12) 63)
                    (N.land (N.shiftr val 6) 63) (N.land val 63) in
   N.land (N.shiftr q 16) 255 = a /\ N.land (N.shiftr q 8) 255 = b
   /\ N.land (N.shiftr q 0) 255 = c)%N.
Proof.
  intros Ha Hb Hc val q. subst q.
  assert (val = a * 65536 + b * 256 + c)%N as Hval by now apply val_sum.
  rewrite !land_63, !N.shiftr_div_pow2.
  rewrite quantum_sum by (apply N.mod_lt; discriminate).
  change (2 ^ 18)%N with 262144%N. change (2 ^ 12)%N with 4096%N.
  change (2 ^ 6)%N with 64%N.
  rewrite sextets_sum by lia.
  rewrite !land_255, ?N.shiftr_div_pow2, Hval. change (2 ^ 0)%N with 1%N.
  rewrite N.div_1_r. now apply bytes_of_sum.
Qed.

Lemma sextet_encode (v : N) :
  sextet (base64.encode (N.land v 63)) = Some (N.land v 63)
  /\ is_byte (base64.encode (N.land v 63)) "=" = false.
Proof.
  rewrite land_63. pose proof (N.mod_lt v 64 ltac:(discriminate)) as H.
  rewrite <- (N2Nat.id (v mod 64)%N) in *.
  assert (N.to_nat (v mod 64) < 64)%nat as Hn by lia. clear H.
  generalize dependent (N.to_nat (v mod 64)%N). intros n Hn.
  do 64 (destruct n as [|n]; [split; vm_compute; reflexivity|]). lia.
Qed.

Lemma low_sextet_0 (a b : N) :
  (b < 256 -> N.land (N.lor (N.lor (N.shiftl a 16) (N.shiftl b 8)) 0) 63 = 0)%N.
Proof.
  intros Hb. rewrite val_sum, land_63 by lia.
  replace (a * 65536 + b * 256 + 0)%N with ((a * 1024 + b * 4) * 64)%N by lia.
  apply N.Div0.mod_mul.
Qed.

Lemma third_sextet_0 (a : N) :
  N.land (N.shiftr (N.lor (N.lor (N.shiftl a 16) (N.shiftl 0 8)) 0) 6) 63 = 0%N.
Proof.
  rewrite val_sum, land_63, N.shiftr_div_pow2 by lia.
  replace (a * 65536 + 0 * 256 + 0)%N with (a * 1024 * 2 ^ 6)%N by lia.
  rewrite N.div_mul by discriminate.
  replace (a * 1024)%N with (a * 16 * 64)%N by lia. apply N.Div0.mod_mul.
Qed.

Lemma octet_byte (q k : N) (c : ascii) :
  N.land (N.shiftr q k) 255 = byte c -> octet q k = c.
Proof. unfold octet. intros ->. apply ascii_N_embedding. Qed.

Lemma decode_groups (s : string) :
  base64Decode (string_of_list_ascii (groups s)) = Some s.
Proof.
  induction s as [|a|a b|a b c s IH] using string_triples_ind.
  - reflexivity.
  - cbn [groups sextets take app string_of_list_ascii base64Decode].
    destruct (sextet_encode (N.shiftr (N.lor (N.lor (N.shiftl (byte a) 16) (N.shiftl 0 8)) 0) 18))
      as [-> _].
    destruct (sextet_encode (N.shiftr (N.lor (N.lor (N.shiftl (byte a) 16) (N.shiftl 0 8)) 0) 12))
      as [-> _].
    cbn [mbind option_bind]. change (is_byte base64.StdPadding "=") with true. cbn iota.
    pose proof (quantum_sextets (byte a) 0 0 (byte_lt a) eq_refl eq_refl) as (H0 & _ & _).
    cbv zeta in H0. rewrite third_sextet_0, low_sextet_0 in H0 by reflexivity.
    now rewrite (octet_byte _ _ _ H0).
  - cbn [groups sextets take app string_of_list_ascii base64Decode].
    set (val := N.lor (N.lor (N.shiftl (byte a) 16) (N.shiftl (byte b) 8)) 0).
    destruct (sextet_encode (N.shiftr val 18)) as [-> _].
    destruct (sextet_encode (N.shiftr val 12)) as [-> _].
    destruct (sextet_encode (N.shiftr val 6)) as [-> ->].
    cbn [mbind option_bind]. change (is_byte base64.StdPadding "=") with true. cbn iota.
    pose proof (quantum_sextets (byte a) (byte b) 0 (byte_lt a) (byte_lt b) eq_refl)
      as (H0 & H1 & _).
    cbv zeta in H0, H1. fold val in H0, H1.
    assert (N.land val 63 = 0%N) as Hz by apply (low_sextet_0 _ _ (byte_lt b)).
    rewrite Hz in H0, H1.
    now rewrite (octet_byte _ _ _ H0), (octet_byte _ _ _ H1).
  - cbn [groups sextets app string_of_list_ascii base64Decode].
    set (val := N.lor (N.lor (N.shiftl (byte a) 16) (N.shiftl (byte b) 8)) (byte c)).
    destruct (sextet_encode (N.shiftr val 18)) as [-> _].
    destruct (sextet_encode (N.shiftr val 12)) as [-> _].
    destruct (sextet_encode (N.shiftr val 6)) as [-> _].
    destruct (sextet_encode val) as [-> ->].
    cbn [mbind option_bind]. rewrite IH.
    pose proof (quantum_sextets (byte a) (byte b) (byte c) (byte_lt a) (byte_lt b) (byte_lt c))
      as (H0 & H1 & H2).
    cbv zeta in H0, H1, H2. fold val in H0, H1, H2.
    now rewrite (octet_byte _ _ _ H0), (octet_byte _ _ _ H1), (octet_byte _ _ _ H2).
Qed.

(** X15. Decoding the result of [ToBase64] gives the text back, whatever
    its bytes are: no two texts have the same encoding. *)
Theorem ToBase64_round_trip (es : string) : base64Decode (template.ToBase64 es) = Some es.
Proof. unfold template.ToBase64. rewrite EncodeToString_groups. apply decode_groups. Qed.

Lemma encode_alphabet (v : N) : isBase64Byte (base64.encode (N.land v 63)) = true.
Proof.
  rewrite land_63. pose proof (N.mod_lt v 64 ltac:(discriminate)) as H.
  rewrite <- (N2Nat.id (v mod 64)%N) in *.
  assert (N.to_nat (v mod 64) < 64)%nat as Hn by lia. clear H.
  generalize dependent (N.to_nat (v mod 64)%N). intros n Hn.
  do 64 (destruct n as [|n]; [vm_compute; reflexivity|]). lia.
Qed.

Lemma string_of_list_ascii_length (l : list ascii) :
  String.length (string_of_list_ascii l) = length l.
Proof. induction l; simpl; congruence. Qed.

Lemma groups_shape (s : string) :
  exists body,
    string_of_list_ascii (groups s) = body +:+ padding (String.length s)
    /\ all_bytes isBase64Byte body = true
    /\ length (groups s) = 4 * ((String.length s + 2) / 3).
Proof.
  induction s as [|a|a b|a b c s (body & E & Hb & Hl)] using string_triples_ind.
  - now exists "".
  - eexists (String _ (String _ "")). split; [reflexivity|]. split; [|reflexivity].
    cbn [all_bytes list_ascii_of_string forallb]. now rewrite !encode_alphabet.
  - eexists (String _ (String _ (String _ ""))). split; [reflexivity|].
    split; [|reflexivity].
    cbn [all_bytes list_ascii_of_string forallb]. now rewrite !encode_alphabet.
  - eexists (String _ (String _ (String _ (String _ body)))). split; [|split].
    + cbn [groups sextets app string_of_list_ascii String.append]. rewrite E.
      do 5 f_equal. unfold padding. cbn [String.length].
      replace (S (S (S (String.length s)))) with (String.length s + 1 * 3) by lia.
      now rewrite Nat.Div0.mod_add.
    + cbn [all_bytes list_ascii_of_string forallb]. rewrite !encode_alphabet.
      exact Hb.
    + cbn [groups sextets app length String.length]. rewrite Hl.
      replace (S (S (S (String.length s))) + 2) with (String.length s + 2 + 1 * 3) by lia.
      rewrite Nat.div_add by lia. lia.
Qed.

(** X16. The result of [ToBase64] has four characters for every three
    bytes of the text, rounded up; it is made of characters of the
    alphabet followed by the padding, which is empty, [=] or [==] as the
    length of the text leaves 0, 2 or 1 after a division by three. *)
Theorem ToBase64_shape (es : string) :
  exists body,
    template.ToBase64 es = body +:+ padding (String.length es)
    /\ all_bytes isBase64Byte body = true
    /\ String.length (template.ToBase64 es) = 4 * ((String.length es + 2) / 3).
Proof.
  unfold template.ToBase64. rewrite EncodeToString_groups, string_of_list_ascii_length.
  apply groups_shape.
Qed.

Lemma string_of_list_ascii_app (l1 l2 : list ascii) :
  string_of_list_ascii (l1 ++ l2) = string_of_list_ascii l1 +:+ string_of_list_ascii l2.
Proof. induction l1; simpl; congruence. Qed.

Lemma groups_app (s1 s2 : string) :
  String.length s1 mod 3 = 0 -> groups (s1 +:+ s2) = groups s1 ++ groups s2.
Proof.
  induction s1 as [|a|a b|a b c s1 IH] using string_triples_ind; intros H;
    try discriminate H; [reflexivity|].
  cbn [String.append groups]. rewrite <- app_assoc. f_equal. apply IH.
  cbn [String.length] in H.
  replace (S (S (S (String.length s1)))) with (String.length s1 + 1 * 3) in H by lia.
  now rewrite Nat.Div0.mod_add in H.
Qed.

(** X17. The encoding can be made in pieces: after a text whose length is
    a multiple of three, the encoding of what follows is appended. *)
Theorem ToBase64_app (s1 s2 : string) :
  String.length s1 mod 3 = 0 -> template.ToBase64 (s1 +:+ s2) = template.ToBase64 s1 +:+ template.ToBase64 s2.
Proof.
  intros H. unfold template.ToBase64. rewrite !EncodeToString_groups, (groups_app _ _ H).
  apply string_of_list_ascii_app.
Qed.

Lemma ToBase64_app_witness :
  template.ToBase64 ("Man" +:+ "hello") = template.ToBase64 "Man" +:+ template.ToBase64 "hello".
Proof. apply (ToBase64_app "Man" "hello"). reflexivity. Defined.

(** ** Fields *)

(** The runes up to U+32C8 that are spaces. *)
Example IsSpace_table :
  filter unicode.IsSpace (N.of_nat <$> seq 0 (N.to_nat 13000))
  = [9; 10; 11; 12; 13; 32; 133; 160; 5760; 8192; 8193; 8194; 8195; 8196; 8197;
     8198; 8199; 8200; 8201; 8202; 8232; 8233; 8239; 8287; 12288]%N.
Proof. vm_compute. reflexivity. Qed.

Example Fields_cases :
  template.Fields "  a  bc d " = Some ["a"; "bc"; "d"]
  /\ template.Fields "" = Some []
  /\ template.Fields "   " = Some []
  /\ template.Fields ("a" +:+ String "194" (String "160" "b c")) = Some ["a"; "b"; "c"]
  /\ template.Fields ("a" +:+ String "160" "b c") = Some ["a" +:+ String "160" "b"; "c"].
Proof. repeat split. Qed.

Lemma take_str_all (n : nat) (t : string) : String.length t <= n -> take_str n t = t.
Proof.
  revert t; induction n as [|n IH]; intros [|c t] H; simpl in *; try reflexivity; try lia.
  rewrite IH; [reflexivity | lia].
Qed.

Lemma length_take_str_eq (n : nat) (s : string) :
  n <= String.length s -> String.length (take_str n s) = n.
Proof.
  revert s; induction n as [|n IH]; intros [|c s] H; simpl in *; try reflexivity; try lia.
  rewrite IH; [reflexivity | lia].
Qed.

Lemma drop_str_app_le (st : nat) (pre suf : string) :
  st <= String.length pre -> drop_str st (pre +:+ suf) = drop_str st pre +:+ suf.
Proof.
  revert pre; induction st as [|st IH]; intros [|c pre] H; simpl in *; try reflexivity; try lia.
  apply IH. lia.
Qed.

Lemma slice_app_l (pre suf : string) (st : nat) :
  st <= String.length pre ->
  strings.slice (pre +:+ suf) st (String.length pre) = drop_str st pre.
Proof.
  intros H. unfold strings.slice. rewrite (drop_str_app_le _ _ _ H).
  rewrite <- (length_drop_str st pre). apply take_str_app.
Qed.

Lemma slice_to_end (s : string) (st : nat) :
  strings.slice s st (String.length s) = drop_str st s.
Proof.
  unfold strings.slice. apply take_str_all. rewrite length_drop_str. lia.
Qed.

Lemma all_bytes_app (p : ascii -> bool) (a b : string) :
  all_bytes p (a +:+ b) = all_bytes p a && all_bytes p b.
Proof.
  unfold all_bytes. induction a as [|c a IH]; [reflexivity|].
  cbn [String.append list_ascii_of_string forallb]. now rewrite IH, andb_assoc.
Qed.

Lemma str_app_byte (pre : string) (c : ascii) (rest : string) :
  pre +:+ String c rest = (pre +:+ String c "") +:+ rest.
Proof. now rewrite str_app_assoc. Qed.

Lemma length_app_byte (pre : string) (c : ascii) :
  String.length (pre +:+ String c "") = String.length pre + 1.
Proof. now rewrite str_length_app. Qed.

Lemma decode_ascii (c : ascii) (rest : string) :
  low c = true -> utf8.DecodeRuneInString (String c rest) = (byte c, 1).
Proof.
  intros H. apply N.ltb_lt in H. cbn [utf8.DecodeRuneInString].
  now rewrite (first_ascii _ H).
Qed.

Lemma runes_ascii (c : ascii) (rest : string) :
  low c = true -> utf8.runes (String c rest) = (byte c, 1) :: utf8.runes rest.
Proof. intros H. now rewrite (runes_cons _ _ _ _ (decode_ascii c rest H)). Qed.

Lemma IsSpace_ascii (c : ascii) :
  low c = true -> unicode.IsSpace (byte c) = strings.asciiSpace c.
Proof. each_byte c. Qed.

Lemma asciiSpace_low (c : ascii) : strings.asciiSpace c = true -> low c = true.
Proof. each_byte c. Qed.

Lemma lor_low (a b : N) : (N.lor a b <? 128)%N = (a <? 128)%N && (b <? 128)%N.
Proof.
  assert (forall x, (x <? 128)%N = (N.shiftr x 7 =? 0)%N) as E.
  { intros x. rewrite N.shiftr_div_pow2. change (2 ^ 7)%N with 128%N.
    destruct (N.ltb_spec x 128) as [H|H]; symmetry.
    - apply N.eqb_eq. now apply N.div_small.
    - apply N.eqb_neq. intros H0. apply N.div_small_iff in H0; lia. }
  rewrite !E, N.shiftr_lor.
  destruct (N.eqb_spec (N.shiftr a 7) 0) as [->|Ha]; [reflexivity|].
  apply N.eqb_neq. intros H. apply N.lor_eq_0_iff in H. tauto.
Qed.

Lemma scanFields_bits (s : string) (n : nat) (w : bool) (bits : N) :
  ((strings.scanFields n w bits s).2 <? 128)%N = (bits <? 128)%N && all_bytes low s.
Proof.
  revert n w bits; induction s as [|c s IH]; intros n w bits.
  - simpl. now rewrite andb_true_r.
  - cbn [strings.scanFields all_bytes list_ascii_of_string forallb].
    rewrite IH, lor_low. unfold low, all_bytes. now rewrite andb_assoc.
Qed.

Lemma scanFields_count (suf : string) (n : nat) (wasSpace : bool) (bits : N)
    (start : option nat) (e len : nat) :
  all_bytes low suf = true ->
  wasSpace = negb (bool_decide (is_Some start)) ->
  (strings.scanFields n wasSpace bits suf).1 + (if wasSpace then 0 else 1)
  = n + length (strings.spansLoop unicode.IsSpace start e (utf8.runes suf) len).
Proof.
  revert n wasSpace bits start e; induction suf as [|c suf IH];
    intros n wasSpace bits start e Hlow Hw.
  - destruct start; subst wasSpace; simpl; lia.
  - cbn [all_bytes list_ascii_of_string forallb] in Hlow.
    apply andb_true_iff in Hlow as [Hc Hlow].
    rewrite (runes_ascii _ _ Hc). cbn [strings.scanFields strings.spansLoop].
    rewrite (IsSpace_ascii _ Hc).
    destruct (strings.asciiSpace c) eqn:Sp, start as [st|]; subst wasSpace;
      cbn [negb andb bool_decide decide_rel is_Some_dec length];
      match goal with
      | |- context [strings.scanFields ?n' ?w' ?b' suf] =>
          match goal with
          | |- context [strings.spansLoop _ ?st' ?e' _ _] =>
              pose proof (IH n' w' b' st' e' Hlow eq_refl) as IH'
          end
      end; cbn [length] in *; lia.
Qed.

Lemma store_next (done : list string) (k : nat) (x : string) :
  strings.store (done ++ replicate (S k) "") (length done) x
  = Some ((done ++ [x]) ++ replicate k "").
Proof.
  unfold strings.store. rewrite length_app. cbn [replicate length].
  replace (length done <? length done + S (length (replicate k "")))%nat with true
    by (symmetry; apply Nat.ltb_lt; lia).
  rewrite insert_app_r_alt by lia. rewrite Nat.sub_diag. cbn.
  now rewrite <- app_assoc.
Qed.

(** The loops of the ASCII path fill the fields that [FieldsFunc] finds;
    no index is out of range when [a] has room for them. *)
Lemma fieldsLoop_spans (suf pre : string) (done : list string)
    (start : option nat) (fieldStart : nat) (skipping : bool) :
  all_bytes low suf = true ->
  (skipping = true /\ start = None)
  \/ (skipping = false /\ start = Some fieldStart /\ fieldStart < String.length pre) ->
  strings.fieldsLoop (pre +:+ suf)
    (done ++ replicate
       (length (strings.spansLoop unicode.IsSpace start (String.length pre)
                  (utf8.runes suf) (String.length (pre +:+ suf)))) "")
    (length done) fieldStart (String.length pre) skipping suf
  = Some (done ++ map (λ '(st, en), strings.slice (pre +:+ suf) st en)
                   (strings.spansLoop unicode.IsSpace start (String.length pre)
                      (utf8.runes suf) (String.length (pre +:+ suf)))).
Proof.
  revert pre done start fieldStart skipping;
    induction suf as [|c suf IH]; intros pre done start fieldStart skipping Hlow Hst.
  - cbn [strings.fieldsLoop]. change (utf8.runes "") with (@nil (N * nat)).
    cbn [strings.spansLoop]. rewrite str_app_nil_r.
    destruct Hst as [[-> ->]|(-> & -> & Hfs)].
    + rewrite Nat.ltb_irrefl. reflexivity.
    + replace (fieldStart <? String.length pre)%nat with true
        by (symmetry; now apply Nat.ltb_lt).
      cbn [length map]. rewrite store_next, slice_to_end. cbn [replicate].
      now rewrite app_nil_r.
  - cbn [all_bytes list_ascii_of_string forallb] in Hlow.
    apply andb_true_iff in Hlow as [Hc Hlow].
    rewrite (runes_ascii _ _ Hc). cbn [strings.fieldsLoop strings.spansLoop].
    rewrite (IsSpace_ascii _ Hc).
    rewrite (str_app_byte pre c suf), <- (length_app_byte pre c).
    destruct Hst as [[-> ->]|(-> & -> & Hfs)]; destruct (strings.asciiSpace c) eqn:Sp;
      cbn [negb].
    + apply IH; [exact Hlow | now left].
    + apply IH; [exact Hlow | right; rewrite length_app_byte; repeat split; lia].
    + cbn [length map]. rewrite store_next. cbn [mbind option_bind].
      replace (length done + 1) with (length (done ++ [strings.slice
         ((pre +:+ String c "") +:+ suf) fieldStart (String.length pre)]))
        by (rewrite length_app; reflexivity).
      rewrite (IH _ _ None fieldStart true Hlow) by now left.
      now rewrite <- app_assoc.
    + apply IH; [exact Hlow | right; rewrite length_app_byte; repeat split; lia].
Qed.

(** [Fields] never stops on an index: its count of the fields is exact on
    the ASCII path, which gives what [FieldsFunc] gives. *)
Lemma Fields_FieldsFunc (s : string) :
  strings.Fields s = Some (strings.FieldsFunc s unicode.IsSpace).
Proof.
  unfold strings.Fields.
  destruct (strings.scanFields 0 true 0 s) as [n setBits] eqn:E.
  destruct (128 <=? setBits)%N eqn:Hb; [reflexivity|].
  assert (all_bytes low s = true) as Hlow.
  { pose proof (scanFields_bits s 0 true 0) as H. rewrite E in H. cbn [snd] in H.
    apply N.leb_gt in Hb. apply N.ltb_lt in Hb. rewrite Hb in H. now symmetry in H. }
  pose proof (scanFields_count s 0 true 0 None 0 (String.length s) Hlow eq_refl) as Hn.
  rewrite E in Hn. cbn [fst] in Hn. rewrite Nat.add_0_r in Hn. subst n.
  exact (fieldsLoop_spans s "" [] None 0 true Hlow (or_introl (conj eq_refl eq_refl))).
Qed.

Lemma decode_high (x : ascii) (rest : string) (r : N) (w : nat) :
  (128 <= byte x)%N ->
  utf8.DecodeRuneInString (String x rest) = (r, w) ->
  all_bytes high (take_str w (String x rest)) = true.
Proof.
  intros Hx.
  destruct rest as [|y1 [|y2 [|y3 rest]]];
    cbn [utf8.DecodeRuneInString];
    destruct (first_cases _ Hx) as [E|[E|[E|[E|[E|[E|[E|E]]]]]]]; rewrite E;
    eval_info; cbv beta iota zeta; unfold utf8.cont;
    cbn [String.length Nat.ltb Nat.leb orb andb negb];
    split_ifs; intros H; inversion H; subst;
    cbn [take_str all_bytes list_ascii_of_string forallb];
    unfold high; bool_hyps;
    repeat (apply andb_true_iff; split); try reflexivity; apply N.leb_le; lia.
Qed.

Lemma high_noSpace (s : string) : all_bytes high s = true -> all_bytes noSpace s = true.
Proof.
  unfold all_bytes. induction s as [|c s IH]; [reflexivity|].
  cbn [list_ascii_of_string forallb]. intros H. apply andb_true_iff in H as [Hc Hs].
  rewrite (IH Hs), andb_true_r. revert Hc. each_byte c.
Qed.

(** The bytes of a rune that is not a space hold no ASCII space. *)
Lemma rune_noSpace (x : ascii) (rest : string) (r : N) (w : nat) :
  utf8.DecodeRuneInString (String x rest) = (r, w) ->
  unicode.IsSpace r = false ->
  all_bytes noSpace (take_str w (String x rest)) = true.
Proof.
  intros D Hr. destruct (low x) eqn:Hx.
  - rewrite (decode_ascii _ _ Hx) in D. inversion D; subst.
    rewrite (IsSpace_ascii _ Hx) in Hr.
    cbn [take_str all_bytes list_ascii_of_string forallb]. unfold noSpace.
    now rewrite Hr.
  - apply high_noSpace. apply (decode_high x rest r w); [|exact D].
    apply N.ltb_ge in Hx. exact Hx.
Qed.

Lemma isField_drop (st : nat) (pre : string) :
  st < String.length pre -> all_bytes noSpace (drop_str st pre) = true ->
  isField (drop_str st pre) = true.
Proof.
  intros H Hn. unfold isField. rewrite Hn, andb_true_r.
  apply negb_true_iff. apply String.eqb_neq. intros E.
  pose proof (length_drop_str st pre) as L. rewrite E in L. simpl in L. lia.
Qed.

(** Every span that [FieldsFunc] records is a field. *)
Lemma spans_fields (n : nat) (suf pre : string) (start : option nat) :
  String.length suf <= n ->
  match start with
  | Some st => st < String.length pre /\ all_bytes noSpace (drop_str st pre) = true
  | None => True
  end ->
  Forall (λ '(st, en), isField (strings.slice (pre +:+ suf) st en) = true)
    (strings.spansLoop unicode.IsSpace start (String.length pre)
       (utf8.runes suf) (String.length (pre +:+ suf))).
Proof.
  revert suf pre start; induction n as [|n IH]; intros suf pre start Hn Hst.
  - destruct suf; [|simpl in Hn; lia]. change (utf8.runes "") with (@nil (N * nat)).
    cbn [strings.spansLoop]. destruct start as [st|]; [|constructor].
    constructor; [|constructor]. rewrite slice_to_end, str_app_nil_r.
    now apply isField_drop.
  - destruct suf as [|x rest].
    { change (utf8.runes "") with (@nil (N * nat)).
      cbn [strings.spansLoop]. destruct start as [st|]; [|constructor].
      constructor; [|constructor]. rewrite slice_to_end, str_app_nil_r.
      now apply isField_drop. }
    destruct (utf8.DecodeRuneInString (String x rest)) as [r w] eqn:D.
    rewrite (runes_cons _ _ _ _ D).
    destruct (decode_take _ _ _ _ D) as [_ [Hw1 Hw2]].
    cbn [strings.spansLoop].
    pose proof (take_drop_str w (String x rest)) as Hcut.
    pose proof (length_take_str_eq w (String x rest) Hw2) as Hlen.
    set (tk := take_str w (String x rest)) in *.
    set (suf' := drop_str w (String x rest)) in *.
    assert (String.length suf' <= n) as Hn'.
    { subst suf'. rewrite length_drop_str. simpl in Hn |- *. lia. }
    rewrite <- Hcut, <- str_app_assoc.
    replace (String.length pre + w) with (String.length (pre +:+ tk))
      by (rewrite str_length_app; lia).
    destruct (unicode.IsSpace r) eqn:Hr.
    + destruct start as [st|].
      * constructor; [|now apply IH].
        rewrite str_app_assoc, slice_app_l by lia. now apply isField_drop.
      * now apply IH.
    + pose proof (rune_noSpace _ _ _ _ D Hr) as Htk. fold tk in Htk.
      destruct start as [st|].
      * apply IH; [exact Hn'|]. destruct Hst as [Hst1 Hst2].
        rewrite str_length_app, drop_str_app_le, all_bytes_app, Hst2, Htk by lia.
        split; [lia | reflexivity].
      * apply IH; [exact Hn'|]. rewrite drop_str_app, Htk, str_length_app.
        split; [lia | reflexivity].
Qed.

(** [FieldsFunc] records no span exactly when every rune is a separator. *)
Lemma spansLoop_nil (f : N -> bool) (start : option nat) (e len : nat) (rs : list (N * nat)) :
  strings.spansLoop f start e rs len = []
  <-> start = None /\ forallb (λ '(r, _), f r) rs = true.
Proof.
  revert start e; induction rs as [|[r w] rs IH]; intros start e.
  - cbn. destruct start; split; intros H; try tauto; try discriminate; now destruct H.
  - cbn [strings.spansLoop forallb]. destruct (f r), start as [st|]; cbn [andb].
    + split; [discriminate | now intros [H _]].
    + apply IH.
    + rewrite IH. split; [now intros [H _] | now intros [_ H]].
    + rewrite IH. split; [now intros [H _] | now intros [_ H]].
Qed.

Lemma spans_word (w rest : string) (start : option nat) (e len : nat) :
  all_bytes (λ c, low c && noSpace c) w = true ->
  strings.spansLoop unicode.IsSpace start e (utf8.runes (w +:+ rest)) len
  = strings.spansLoop unicode.IsSpace
      (match w, start with
       | "", _ => start
       | _, Some st => Some st
       | _, None => Some e
       end)
      (e + String.length w) (utf8.runes rest) len.
Proof.
  revert start e; induction w as [|c w IH]; intros start e H.
  - cbn [String.append String.length]. now rewrite Nat.add_0_r.
  - cbn [all_bytes list_ascii_of_string forallb] in H.
    apply andb_true_iff in H as [Hc Hw]. apply andb_true_iff in Hc as [Hlow Hns].
    cbn [String.append]. rewrite (runes_ascii _ _ Hlow). cbn [strings.spansLoop].
    rewrite (IsSpace_ascii _ Hlow). unfold noSpace in Hns.
    apply negb_true_iff in Hns. rewrite Hns.
    cbn [String.length]. replace (e + S (String.length w)) with (e + 1 + String.length w) by lia.
    destruct start as [st|]; rewrite (IH _ _ Hw); now destruct w.
Qed.

Lemma slice_middle (pre w rest : string) :
  strings.slice (pre +:+ w +:+ rest) (String.length pre) (String.length pre + String.length w)
  = w.
Proof.
  unfold strings.slice. rewrite drop_str_app.
  replace (String.length pre + String.length w - String.length pre)
    with (String.length w) by lia.
  apply take_str_app.
Qed.

Lemma isAsciiWord_inv (w : string) :
  isAsciiWord w = true -> w <> "" /\ all_bytes (λ c, low c && noSpace c) w = true.
Proof.
  unfold isAsciiWord. intros H. apply andb_true_iff in H as [H1 H2]. split; [|exact H2].
  apply negb_true_iff in H1. now apply String.eqb_neq.
Qed.

Lemma spans_words (ws : list string) (pre : string) :
  Forall (λ w, isAsciiWord w = true) ws -> ws <> [] ->
  map (λ '(st, en), strings.slice (pre +:+ strings.Join ws " ") st en)
    (strings.spansLoop unicode.IsSpace None (String.length pre)
       (utf8.runes (strings.Join ws " ")) (String.length (pre +:+ strings.Join ws " ")))
  = ws.
Proof.
  revert pre; induction ws as [|w ws IH]; intros pre Hws Hne; [congruence|].
  apply Forall_cons in Hws as [Hw Hws]. apply isAsciiWord_inv in Hw as [Hw0 Hw].
  destruct ws as [|w' ws].
  - change (strings.Join [w] " ") with w.
    replace (utf8.runes w) with (utf8.runes (w +:+ "")) by now rewrite str_app_nil_r.
    rewrite (spans_word w "" None _ _ Hw).
    change (utf8.runes "") with (@nil (N * nat)).
    destruct w as [|c w]; [congruence|]. cbn [strings.spansLoop map].
    now rewrite slice_to_end, drop_str_app.
  - rewrite Join_cons by discriminate.
    rewrite (spans_word w _ None _ _ Hw).
    destruct w as [|c w]; [congruence|].
    change (" " +:+ strings.Join (w' :: ws) " ")
      with (String " " (strings.Join (w' :: ws) " ")).
    rewrite (runes_ascii " " _ eq_refl). cbn [strings.spansLoop].
    change (unicode.IsSpace (byte " ")) with true. cbn iota. cbn [map]. f_equal.
    + apply (slice_middle pre (String c w)).
    + specialize (IH (pre +:+ String c w +:+ " ") Hws ltac:(discriminate)).
      assert ((pre +:+ String c w +:+ " ") +:+ strings.Join (w' :: ws) " "
              = pre +:+ String c w +:+ String " " (strings.Join (w' :: ws) " ")) as E
        by now rewrite !str_app_assoc.
      assert (String.length (pre +:+ String c w +:+ " ")
              = String.length pre + String.length (String c w) + 1) as L
        by (rewrite !str_length_app; simpl; lia).
      now rewrite E, L in IH.
Qed.

Lemma filter_str_all (p : ascii -> bool) (s : string) :
  all_bytes p s = true -> filter_str p s = s.
Proof.
  unfold all_bytes. induction s as [|c s IH]; [reflexivity|].
  cbn [list_ascii_of_string forallb filter_str]. intros H.
  apply andb_true_iff in H as [-> H]. now rewrite IH.
Qed.

Lemma concat_cons (x : string) (l : list string) :
  String.concat "" (x :: l) = x +:+ String.concat "" l.
Proof. destruct l; cbn [String.concat]; [now rewrite str_app_nil_r | reflexivity]. Qed.

Lemma spans_concat (suf pre : string) (start : option nat) :
  all_bytes low suf = true ->
  match start with
  | Some st => st <= String.length pre /\ all_bytes noSpace (drop_str st pre) = true
  | None => True
  end ->
  String.concat ""
    (map (λ '(st, en), strings.slice (pre +:+ suf) st en)
       (strings.spansLoop unicode.IsSpace start (String.length pre)
          (utf8.runes suf) (String.length (pre +:+ suf))))
  = match start with
    | Some st => drop_str st pre
    | None => ""
    end +:+ filter_str noSpace suf.
Proof.
  revert pre start; induction suf as [|c suf IH]; intros pre start Hlow Hst.
  - change (utf8.runes "") with (@nil (N * nat)). cbn [strings.spansLoop filter_str].
    destruct start as [st|]; [|reflexivity]. cbn [map String.concat].
    now rewrite slice_to_end, !str_app_nil_r.
  - cbn [all_bytes list_ascii_of_string forallb] in Hlow.
    apply andb_true_iff in Hlow as [Hc Hlow].
    rewrite (runes_ascii _ _ Hc). cbn [strings.spansLoop filter_str].
    rewrite (IsSpace_ascii _ Hc).
    assert (noSpace c = negb (strings.asciiSpace c)) as Hns by reflexivity. rewrite Hns.
    rewrite (str_app_byte pre c suf), <- (length_app_byte pre c).
    destruct (strings.asciiSpace c) eqn:Sp; cbn [negb]; destruct start as [st|].
    + cbn [map]. destruct Hst as [Hst1 Hst2].
      rewrite concat_cons, (IH _ None Hlow I), <- (str_app_byte pre c suf).
      now rewrite slice_app_l by lia.
    + now rewrite (IH _ None Hlow I).
    + destruct Hst as [Hst1 Hst2]. rewrite (IH _ (Some st) Hlow).
      * rewrite drop_str_app_le by lia. now rewrite str_app_assoc.
      * rewrite length_app_byte, drop_str_app_le, all_bytes_app, Hst2 by lia.
        split; [lia|]. cbn. now rewrite Hns.
    + rewrite (IH _ (Some (String.length pre)) Hlow).
      * now rewrite drop_str_app.
      * rewrite length_app_byte, drop_str_app. split; [lia|]. cbn. now rewrite Hns.
Qed.

Lemma Fields_value (es : string) :
  template.Fields es = Some (strings.FieldsFunc es unicode.IsSpace).
Proof. unfold template.Fields. rewrite Fields_FieldsFunc. cbn. now rewrite convertSlice_id. Qed.

(** X18. [Fields] never stops on an index out of range: the count that
    its first loop makes is the number of the fields that the ASCII path
    stores.  For every text, ASCII or not, the result is that of
    [FieldsFunc] with [unicode.IsSpace]. *)
Theorem Fields_never_stops (es : string) :
  template.Fields es = Some (strings.FieldsFunc es unicode.IsSpace).
Proof.
  unfold template.Fields. rewrite Fields_FieldsFunc.
  cbn [mbind option_bind]. now rewrite convertSlice_id.
Qed.

(** X19. No field that [Fields] returns is empty, and none holds a tab, a
    line feed, a vertical tab, a form feed, a carriage return or a space,
    whatever the text is. *)
Theorem Fields_gives_fields (es : string) :
  exists l, template.Fields es = Some l /\ Forall (λ fld, isField fld = true) l.
Proof.
  eexists. split; [apply Fields_value|].
  unfold strings.FieldsFunc. apply Forall_map.
  apply (Forall_impl _ _ _ (spans_fields (String.length es) es "" None (le_n _) I)).
  now intros [st en].
Qed.

(** X20. [Fields] returns no field exactly when every rune of the text is
    a space of [unicode.IsSpace]; the empty text is such a text. *)
Theorem Fields_empty_iff (es : string) :
  template.Fields es = Some [] <-> forallb (λ '(r, _), unicode.IsSpace r) (utf8.runes es) = true.
Proof.
  rewrite Fields_value. unfold strings.FieldsFunc. split.
  - intros H. injection H as H. apply map_eq_nil in H.
    now apply spansLoop_nil in H as [_ H].
  - intros H. f_equal.
    now rewrite (proj2 (spansLoop_nil _ None 0 (String.length es) _) (conj eq_refl H)).
Qed.

(** X21. [Fields] undoes [Join] with a space: for words of ASCII bytes
    that are not spaces, none of them empty, the fields of the words
    joined by one space are the words. *)
Theorem Fields_of_words (ws : list string) :
  Forall (λ w, isAsciiWord w = true) ws ->
  template.Fields (strings.Join ws " ") = Some ws.
Proof.
  intros H. rewrite Fields_value. f_equal.
  destruct ws as [|w ws]; [reflexivity|].
  exact (spans_words (w :: ws) "" H ltac:(discriminate)).
Qed.

Lemma Fields_of_words_witness :
  template.Fields "a bc -d" = Some ["a"; "bc"; "-d"].
Proof. apply (Fields_of_words ["a"; "bc"; "-d"]). repeat constructor. Defined.

(** X22. The fields of an ASCII text, one after the other, are the bytes
    of the text that are not spaces, in their order: [Fields] drops the
    spaces and nothing else. *)
Theorem Fields_keeps_bytes (es : string) :
  all_bytes low es = true ->
  exists l, template.Fields es = Some l /\ String.concat "" l = filter_str noSpace es.
Proof.
  intros H. eexists. split; [apply Fields_value|].
  exact (spans_concat es "" None H I).
Qed.

Lemma Fields_keeps_bytes_witness :
  exists l, template.Fields " a  bc d " = Some l /\ String.concat "" l = filter_str noSpace " a  bc d ".
Proof. apply (Fields_keeps_bytes " a  bc d "). reflexivity. Defined.
